(** * FantasyHelp frontend: the request / cache / queue pipeline of
    [frontend/js/api.js]

    A shallow embedding of the three utility classes of [api.js]
    ([CacheManager] with [CachedApiService.cachedGet], [RequestQueue],
    [APIClient] with [APIError]) and the properties the specification
    states about them.

    Conventions of the embedding:
    - JavaScript numbers that the code uses as counters, HTTP statuses and
      millisecond timestamps are integers of [Z];
    - [Date.now()] and the timers are a logical millisecond clock carried in
      the state;
    - an [async] function is a state transformer returning either a value or
      a thrown error ([Outcome]);
    - the [Map] of the cache is a [gmap] keyed by strings. *)

From stdpp Require Import gmap strings list.
From Stdlib Require Import ZArith Lia DecimalString.
From Equations Require Import Equations.

Set Warnings "-register-all".

Local Open Scope string_scope.
Local Open Scope list_scope.
Local Open Scope Z_scope.

(** ** JavaScript values, errors and outcomes *)

Module JS.

(** JSON-like values as they flow through the cache and the client.
    [JNum] carries the integer numbers only. *)
Inductive JSValue : Type :=
| JUndefined
| JNull
| JBool (b : bool)
| JNum (n : Z)
| JStr (s : string)
| JArr (items : list JSValue)
| JObj (fields : list (string * JSValue)).

(** [v === null] *)
Definition is_null (v : JSValue) : bool :=
  match v with JNull => true | _ => false end.

(** Truthiness, as used by [||] and [!]. *)
Definition truthy (v : JSValue) : bool :=
  match v with
  | JUndefined | JNull => false
  | JBool b => b
  | JNum n => negb (n =? 0)
  | JStr s => negb (String.eqb s EmptyString)
  | JArr _ | JObj _ => true
  end.

(** Property lookup in an object given by its bindings: the last binding
    of a repeated key wins, as in [JSON.parse]; a missing property reads
    as [undefined]. *)
Fixpoint field (name : string) (fields : list (string * JSValue)) : JSValue :=
  match fields with
  | [] => JUndefined
  | (k, v) :: rest =>
      if existsb (fun kv => String.eqb kv.1 name) rest then field name rest
      else if String.eqb k name then v
      else JUndefined
  end.

(** [v?.message]: [undefined] for [null] and [undefined], the property for
    an object, and [undefined] for the primitives and arrays, which have no
    such property. *)
Definition opt_message (v : JSValue) : JSValue :=
  match v with
  | JObj fields => field "message" fields
  | _ => JUndefined
  end.

(** [ToString], applied by the [Error] constructor to its message. *)
Definition string_of_Z (n : Z) : string :=
  NilEmpty.string_of_int (Z.to_int n).

Fixpoint join (sep : string) (parts : list string) : string :=
  match parts with
  | [] => EmptyString
  | [p] => p
  | p :: rest => (p +:+ sep +:+ join sep rest)%string
  end.

Fixpoint to_string (v : JSValue) : string :=
  match v with
  | JUndefined => "undefined"
  | JNull => "null"
  | JBool true => "true"
  | JBool false => "false"
  | JNum n => string_of_Z n
  | JStr s => s
  | JArr items =>
      join ","
        (List.map (fun x => match x with
                            | JUndefined | JNull => EmptyString
                            | _ => to_string x
                            end) items)
  | JObj _ => "[object Object]"
  end.

(** Thrown values. [APIError] is the class of [api.js]; every other error
    (the [TypeError] of a failed [fetch], the [AbortError] of an aborted
    one, a [SyntaxError] of [response.json()], ...) is a [NativeError] with
    its [name] and [message]. *)
Inductive JSError : Type :=
| APIError (message : string) (status : Z) (data : JSValue)
| NativeError (name : string) (message : string).

(** [new APIError(message, status, data = null)]: the default value
    stands in for an argument that is left out and for one that is
    [undefined]. *)
Definition new_APIError (message : string) (status : Z) (data : option JSValue) : JSError :=
  APIError message status
    match data with
    | None | Some JUndefined => JNull
    | Some d => d
    end.

Definition error_name (e : JSError) : string :=
  match e with
  | APIError _ _ _ => "APIError"
  | NativeError n _ => n
  end.


Definition error_status (e : JSError) : option Z :=
  match e with APIError _ s _ => Some s | NativeError _ _ => None end.

Definition AbortError : JSError :=
  NativeError "AbortError" "The operation was aborted.".

(** The result of awaiting a promise: fulfilled with a value or rejected
    with an error. *)
Inductive Outcome (A : Type) : Type :=
| Ok (a : A)
| Throw (e : JSError).
Arguments Ok {A} a.
Arguments Throw {A} e.

(** Stateful, fallible computations over a state [S]. *)
Definition M (S A : Type) : Type := S -> Outcome A * S.

Definition ret {S A} (a : A) : M S A := fun s => (Ok a, s).

Definition throw {S A} (e : JSError) : M S A := fun s => (Throw e, s).

Definition bind {S A B} (m : M S A) (k : A -> M S B) : M S B :=
  fun s => match m s with
           | (Ok a, s') => k a s'
           | (Throw e, s') => (Throw e, s')
           end.

(** [try { m } catch (error) { h error }] *)
Definition try_catch {S A} (m : M S A) (h : JSError -> M S A) : M S A :=
  fun s => match m s with
           | (Ok a, s') => (Ok a, s')
           | (Throw e, s') => h e s'
           end.

Definition gets {S A} (f : S -> A) : M S A := fun s => (Ok (f s), s).

Definition modify {S} (f : S -> S) : M S unit := fun s => (Ok tt, f s).

Definition lift_outcome {S A} (o : Outcome A) : M S A := fun s => (o, s).

End JS.

Import JS.

(** The monad operations under stdpp's notations [x ← m; k] and [m;; k]. *)
#[global] Instance M_ret {S} : MRet (M S) := fun A a => ret a.
#[global] Instance M_bind {S} : MBind (M S) := fun A B k m => bind m k.

(** ** CacheManager and CachedApiService.cachedGet *)

Module Cache.

(** The object stored under a key: [{ data, expiry }]. *)
Record CacheItem : Type := mkItem { data : JSValue; expiry : Z }.

Record CacheManager : Type := mkCache {
  cache : gmap string CacheItem;
  defaultTTL : Z
}.

(** [new CacheManager(defaultTTL = 300000)] *)
Definition new_CacheManager (ttl : option Z) : CacheManager :=
  {| cache := ∅; defaultTTL := default 300000 ttl |}.

Definition with_cache (cm : CacheManager) (m : gmap string CacheItem) : CacheManager :=
  {| cache := m; defaultTTL := defaultTTL cm |}.

(** [get(key)], at clock reading [now]: the returned value and the manager
    afterwards. A stored item is an object, hence never falsy, so
    [!item] holds exactly for a missing key. *)
Definition get (now : Z) (key : string) (cm : CacheManager) : JSValue * CacheManager :=
  match cache cm !! key with
  | None => (JNull, cm)
  | Some item =>
      if now >? expiry item
      then (JNull, with_cache cm (delete key (cache cm)))
      else (data item, cm)
  end.

(** [set(key, data, ttl = this.defaultTTL)], at clock reading [now]. *)
Definition set (now : Z) (key : string) (d : JSValue) (ttl : option Z)
    (cm : CacheManager) : CacheManager :=
  with_cache cm
    (<[key := {| data := d; expiry := now + default (defaultTTL cm) ttl |}]> (cache cm)).

(** [delete(key)] and [clear()] *)
Definition delete_key (key : string) (cm : CacheManager) : CacheManager :=
  with_cache cm (delete key (cache cm)).

Definition clear (cm : CacheManager) : CacheManager := with_cache cm ∅.

(** [getStats()] *)
Record Stats : Type := mkStats { active : nat; expired : nat; total : nat }.

Definition getStats (now : Z) (cm : CacheManager) : Stats :=
  {| active := size (filter (fun kv => ¬ (now > expiry kv.2)) (cache cm));
     expired := size (filter (fun kv => now > expiry kv.2) (cache cm));
     total := size (cache cm) |}.

(** The state [cachedGet] runs in: the clock, the module-level
    [cacheManager], the record of fetcher invocations ([key] and time of
    the call) and the lines written by [console.error]. *)
Record World : Type := mkWorld {
  clock : Z;
  manager : CacheManager;
  fetched : list (string * Z);
  console : list string
}.

(** One run of a fetcher: the time it takes to settle and how it settles. *)
Record FetcherRun : Type := mkRun { took : Z; settles : Outcome JSValue }.

(** A fetcher is a zero-argument async function; what it does may depend
    on when it is called. It does not touch the cache, and no other task
    touches the cache while it is awaited. *)
Definition Fetcher : Type := Z -> FetcherRun.

Definition call_fetcher (key : string) (f : Fetcher) : M World JSValue :=
  fun w =>
    let r := f (clock w) in
    (settles r,
     {| clock := clock w + Z.max 0 (took r);
        manager := manager w;
        fetched := fetched w ++ [(key, clock w)];
        console := console w |}).

Definition cache_get (key : string) : M World JSValue :=
  fun w =>
    let '(v, cm) := get (clock w) key (manager w) in
    (Ok v, {| clock := clock w; manager := cm;
              fetched := fetched w; console := console w |}).

Definition cache_set (key : string) (d : JSValue) (ttl : option Z) : M World unit :=
  modify (fun w => {| clock := clock w;
                      manager := set (clock w) key d ttl (manager w);
                      fetched := fetched w; console := console w |}).

Definition console_error (line : string) : M World unit :=
  modify (fun w => {| clock := clock w; manager := manager w;
                      fetched := fetched w; console := console w ++ [line] |}).

(** [CachedApiService.cachedGet(key, fetcher, ttl)] *)
Definition cachedGet (key : string) (fetcher : Fetcher) (ttl : option Z) : M World JSValue :=
  d ← cache_get key;
  if is_null d then
    try_catch
      (d' ← call_fetcher key fetcher;
       cache_set key d' ttl;;
       ret d')
      (fun error =>
         console_error ("Failed to fetch data for key " +:+ key +:+ ":");;
         throw error)
  else ret d.

(** Time passing between two calls. *)
Definition advance (dt : Z) (w : World) : World :=
  {| clock := clock w + Z.max 0 dt; manager := manager w;
     fetched := fetched w; console := console w |}.

(** A sequence of [cachedGet] calls on one key, the k-th one made [dt_k]
    milliseconds after the previous one returned. *)
Fixpoint cachedGet_each (key : string) (fetcher : Fetcher) (ttl : option Z)
    (gaps : list Z) (w : World) : list (Outcome JSValue) * World :=
  match gaps with
  | [] => ([], w)
  | dt :: rest =>
      let '(o, w1) := cachedGet key fetcher ttl (advance dt w) in
      let '(os, w2) := cachedGet_each key fetcher ttl rest w1 in
      (o :: os, w2)
  end.

(** A key is unserved by a cache when a lookup of it answers [null]
    whatever the time: nothing is stored under it, or [null] is. *)
Definition unserved (key : string) (cm : CacheManager) : Prop :=
  forall item, cache cm !! key = Some item -> data item = JNull.

End Cache.

(** ** RequestQueue *)

Module Queue.

(** A queued entry [{ request, resolve, reject }]: the request function
    together with the callbacks of the promise [add] returned for it. The
    three are created together and used together, so an identifier stands
    for the entry. *)
Definition Op : Type := nat.

Record RequestQueue : Type := mkQueue {
  maxConcurrent : Z;
  running : Z;
  queue : list Op
}.

(** [new RequestQueue(maxConcurrent = 5)] *)
Definition new_RequestQueue (n : option Z) : RequestQueue :=
  {| maxConcurrent := default 5 n; running := 0; queue := [] |}.

(** [processNext()] up to its first [await]: the guard, [running++],
    [queue.shift()] and the call [request()]. The second component is the
    operation whose [request()] has been called, if any. *)
Definition processNext (q : RequestQueue) : RequestQueue * option Op :=
  if (running q >=? maxConcurrent q) || (Nat.eqb (length (queue q)) 0)
  then (q, None)
  else match queue q with
       | [] => (q, None)
       | op :: rest =>
           ({| maxConcurrent := maxConcurrent q;
               running := running q + 1;
               queue := rest |}, Some op)
       end.

(** [add(requestFunction)]: [queue.push(...)], then [processNext()]. *)
Definition add (op : Op) (q : RequestQueue) : RequestQueue * option Op :=
  processNext {| maxConcurrent := maxConcurrent q;
                 running := running q;
                 queue := queue q ++ [op] |}.

(** The rest of [processNext()] once the awaited [request()] has settled:
    [resolve(result)] or [reject(error)], then the [finally] block
    [running--; processNext()]. *)
Definition finally (q : RequestQueue) : RequestQueue * option Op :=
  processNext {| maxConcurrent := maxConcurrent q;
                 running := running q - 1;
                 queue := queue q |}.

(** What happens to a queue: a caller submits an operation, or a running
    operation settles with a result or an error. *)
Inductive Event : Type :=
| Submit (op : Op)
| Settle (op : Op) (result : Outcome JSValue).

(** The queue together with its history: the operations submitted, those
    whose [request()] has been called (in call order), those still awaited
    and the promises settled so far. *)
Record Sys : Type := mkSys {
  rq : RequestQueue;
  submitted : list Op;
  started : list Op;
  inflight : list Op;
  settled : list (Op * Outcome JSValue)
}.

Definition init (n : option Z) : Sys :=
  {| rq := new_RequestQueue n; submitted := []; started := [];
     inflight := []; settled := [] |}.

Fixpoint remove_first (op : Op) (l : list Op) : list Op :=
  match l with
  | [] => []
  | x :: rest => if Nat.eqb x op then rest else x :: remove_first op rest
  end.

Definition dispatched (o : option Op) : list Op :=
  match o with Some op => [op] | None => [] end.

(** One event. Only an awaited operation can settle; a [Settle] of any
    other operation does not occur and leaves the state as it is. *)
Definition step (s : Sys) (e : Event) : Sys :=
  match e with
  | Submit op =>
      let '(q, o) := add op (rq s) in
      {| rq := q;
         submitted := submitted s ++ [op];
         started := started s ++ dispatched o;
         inflight := inflight s ++ dispatched o;
         settled := settled s |}
  | Settle op result =>
      if existsb (Nat.eqb op) (inflight s) then
        let '(q, o) := finally (rq s) in
        {| rq := q;
           submitted := submitted s;
           started := started s ++ dispatched o;
           inflight := remove_first op (inflight s) ++ dispatched o;
           settled := settled s ++ [(op, result)] |}
      else s
  end.

Definition run (s : Sys) (events : list Event) : Sys := fold_left step events s.

(** What every reachable state of a queue of limit [N] satisfies: the
    counter [running] counts the awaited operations and does not exceed
    the limit, nothing waits while a slot is free, the operations were
    started in the order of their submission, and an operation that has
    been started is awaited or has settled. *)
Record Inv (N : Z) (s : Sys) : Prop := mkInv {
  inv_limit : maxConcurrent (rq s) = N;
  inv_count : running (rq s) = Z.of_nat (length (inflight s));
  inv_bound : running (rq s) <= N;
  inv_busy : queue (rq s) <> [] -> running (rq s) = N;
  inv_fifo : submitted s = started s ++ queue (rq s);
  inv_started : started s ≡ₚ map fst (settled s) ++ inflight s
}.

End Queue.

(** ** APIClient *)

Module Client.

(** [haystack.includes(needle)] *)
Fixpoint includes (needle haystack : string) : bool :=
  String.prefix needle haystack
  || match haystack with
     | EmptyString => false
     | String _ rest => includes needle rest
     end.

(** The request configuration built by [request] and passed to [fetch]. *)
Record Config : Type := mkConfig {
  method : string;
  headers : gmap string string;
  body : option string;
  url : string
}.

(** The [options] argument of [request]. *)
Record Options : Type := mkOptions {
  opt_method : option string;
  opt_headers : option (gmap string string);
  opt_body : option string
}.

Definition no_options : Options :=
  {| opt_method := None; opt_headers := None; opt_body := None |}.

(** A [Response] as [request] reads it: status line, the [content-type]
    header, and what [json()] and [text()] settle with. *)
Record Response : Type := mkResponse {
  status : Z;
  statusText : string;
  content_type : option string;
  json : Outcome JSValue;
  text : Outcome string
}.

(** [response.ok]: the status is in the range 200-299. *)
Definition ok (r : Response) : bool := (200 <=? status r) && (status r <=? 299).

(** The [result] object of [request]. *)
Record Result : Type := mkResult {
  res_status : Z;
  res_statusText : string;
  res_headers : option string;
  res_data : JSValue
}.

Record APIClient : Type := mkClient {
  baseURL : string;
  timeout : Z;
  retryAttempts : Z;
  retryDelay : Z;
  requestInterceptors : list (Config -> Outcome Config);
  responseInterceptors : list (Result -> Outcome Result)
}.

(** [API_CONFIG] *)
Record ApiConfig : Type := mkApiConfig {
  cfg_baseURL : string;
  cfg_timeout : Z;
  cfg_retryAttempts : Z;
  cfg_retryDelay : Z
}.

Definition API_CONFIG : ApiConfig :=
  {| cfg_baseURL := "http://localhost:8000/api/v2";
     cfg_timeout := 30000;
     cfg_retryAttempts := 3;
     cfg_retryDelay := 1000 |}.

(** The request interceptor the constructor installs: default headers,
    overridden by those of the configuration. *)
Definition default_headers : gmap string string :=
  <["Content-Type" := "application/json"]> (<["Accept" := "application/json"]> ∅).

Definition header_interceptor (config : Config) : Outcome Config :=
  Ok {| method := method config;
        headers := headers config ∪ default_headers;
        body := body config;
        url := url config |}.

(** [new APIClient(config = API_CONFIG)]; [isLocal] is the test on
    [window.location.hostname]. *)
Definition new_APIClient (config : ApiConfig) (isLocal : bool) : APIClient :=
  {| baseURL := if isLocal then "http://localhost:8000/api/v2" else "/api/v2";
     timeout := cfg_timeout config;
     retryAttempts := cfg_retryAttempts config;
     retryDelay := cfg_retryDelay config;
     requestInterceptors := [header_interceptor];
     responseInterceptors := [] |}.

Definition addRequestInterceptor (i : Config -> Outcome Config) (c : APIClient) : APIClient :=
  {| baseURL := baseURL c; timeout := timeout c;
     retryAttempts := retryAttempts c; retryDelay := retryDelay c;
     requestInterceptors := requestInterceptors c ++ [i];
     responseInterceptors := responseInterceptors c |}.

Definition addResponseInterceptor (i : Result -> Outcome Result) (c : APIClient) : APIClient :=
  {| baseURL := baseURL c; timeout := timeout c;
     retryAttempts := retryAttempts c; retryDelay := retryDelay c;
     requestInterceptors := requestInterceptors c;
     responseInterceptors := responseInterceptors c ++ [i] |}.

(** What the network does with one [fetch] that is left to run: it
    answers with a response after some milliseconds, fails (a transport
    failure) after some milliseconds, or never settles. *)
Inductive NetBehaviour : Type :=
| Responds (after : Z) (r : Response)
| Fails (after : Z) (e : JSError)
| Hangs.

(** The network, for a configuration and the number of [fetch] calls made
    before this one. *)
Definition Network : Type := Config -> nat -> NetBehaviour.

(** What the client does, in order. [EvFetch] records the time of the call
    and whether the request went out (the signal was not yet aborted). *)
Inductive Event : Type :=
| EvFetch (at_ms : Z) (sent : bool)
| EvDelay (ms : Z).

(** The state the client runs in. [now] is the clock as [fetch] and
    [delay] advance it: the time taken by the interceptors and by the
    reading of a body is not part of the model, so the clock of a request
    that has settled reads the time at which [fetchWithRetry] settled.
    [yielded] tells whether the running code has awaited a [fetch] or a
    timer since the abort timer was set: the callback of a timer that is
    due runs only then, never in the middle of the code that set it. *)
Record World : Type := mkWorld {
  now : Z;
  calls : nat;
  trace : list Event;
  yielded : bool
}.

(** [controller.signal.aborted], for a timer due at clock reading
    [signal]. *)
Definition aborted (signal : Z) (w : World) : bool :=
  yielded w && (signal <=? now w).

(** [fetch(url, { ...config, signal })], where the timer that aborts the
    signal is due at clock reading [signal]. A call on an aborted signal is
    rejected at once with an [AbortError] and nothing is sent. Otherwise
    the request goes out; the call settles as the network decides if that
    happens before the timer is due, and is rejected with an [AbortError]
    when the timer fires if not. *)
Definition fetch (net : Network) (config : Config) (signal : Z) : M World Response :=
  fun w =>
    let settle_at (t : Z) : World :=
      {| now := t; calls := S (calls w);
         trace := trace w ++ [EvFetch (now w) (negb (aborted signal w))];
         yielded := true |} in
    let abort := (Throw AbortError, settle_at (Z.max (now w) signal)) in
    if aborted signal w then abort
    else
      match net config (calls w) with
      | Responds d r =>
          if now w + Z.max 0 d <? signal
          then (Ok r, settle_at (now w + Z.max 0 d))
          else abort
      | Fails d e =>
          if now w + Z.max 0 d <? signal
          then (Throw e, settle_at (now w + Z.max 0 d))
          else abort
      | Hangs => abort
      end.

(** [delay(ms)], awaited. *)
Definition delay (ms : Z) : M World unit :=
  modify (fun w => {| now := now w + Z.max 0 ms; calls := calls w;
                      trace := trace w ++ [EvDelay ms];
                      yielded := true |}).

(** [fetchWithRetry(url, options, attempt = 1)] *)
Equations? fetchWithRetry (c : APIClient) (net : Network) (config : Config)
    (signal : Z) (attempt : Z) (w : World) : Outcome Response * World
    by wf (Z.to_nat (retryAttempts c - attempt)) lt :=
fetchWithRetry c net config signal attempt w with fetch net config signal w := {
  | (Ok response, w1)
      with Equations.Prop.Logic.inspect ((status response >=? 500) && (attempt <? retryAttempts c)) := {
      | exist _ true retry =>
          fetchWithRetry c net config signal (attempt + 1)
            (delay (retryDelay c * attempt) w1).2
      | exist _ false _ => (Ok response, w1) }
  | (Throw error, w1)
      with Equations.Prop.Logic.inspect (attempt <? retryAttempts c) := {
      | exist _ true retry =>
          fetchWithRetry c net config signal (attempt + 1)
            (delay (retryDelay c * attempt) w1).2
      | exist _ false _ => (Throw error, w1) } }.
Proof.
  all: lia.
Qed.

(** A chain of interceptors, awaited one after the other. An interceptor
    maps its argument to a new one or throws; it has no other effect. *)
Fixpoint intercept {A : Type} (chain : list (A -> Outcome A)) (x : A) : Outcome A :=
  match chain with
  | [] => Ok x
  | i :: rest =>
      match i x with
      | Ok y => intercept rest y
      | Throw e => Throw e
      end
  end.

(** The world in which a timer has just been set. *)
Definition armed (w : World) : World :=
  {| now := now w; calls := calls w; trace := trace w; yielded := false |}.

(** [setTimeout(() => controller.abort(), this.timeout)]: the clock
    reading at which the timer is due. Its callback aborts the signal at
    the first moment from then on at which the code that set it has
    yielded, unless the timer is cleared before. *)
Definition setTimeout (ms : Z) : M World Z :=
  fun w => (Ok (now w + Z.max 0 ms), armed w).

(** The body of the response, decoded by content type. *)
Definition decode (r : Response) : Outcome JSValue :=
  if match content_type r with
     | Some ct => negb (String.eqb ct EmptyString) && includes "application/json" ct
     | None => false
     end
  then json r
  else match text r with
       | Ok s => Ok (JStr s)
       | Throw e => Throw e
       end.

(** [result.data?.message || response.statusText], as the [Error]
    constructor stores it. *)
Definition error_message (d : JSValue) (r : Response) : string :=
  if truthy (opt_message d) then to_string (opt_message d) else statusText r.

(** The configuration [request] starts from:
    [{ method: 'GET', headers: {}, ...options, url: baseURL + url }]. *)
Definition initial_config (c : APIClient) (path : string) (options : Options) : Config :=
  {| method := default "GET" (opt_method options);
     headers := default ∅ (opt_headers options);
     body := opt_body options;
     url := baseURL c +:+ path |}.

(** [request(url, options = {})]. The timer is set once the request
    interceptors have run and is cleared as soon as [fetchWithRetry] has
    settled, on both paths, so the abort time matters to [fetchWithRetry]
    only: the decoding of the body and the response interceptors are not
    under the timer. *)
Definition request (c : APIClient) (net : Network) (path : string)
    (options : Options) : M World JSValue :=
  config ← lift_outcome (intercept (requestInterceptors c) (initial_config c path options));
  signal ← setTimeout (timeout c);
  try_catch
    (response ← fetchWithRetry c net config signal 1;
     d ← lift_outcome (decode response);
     result ← lift_outcome
       (intercept (responseInterceptors c)
          {| res_status := status response;
             res_statusText := statusText response;
             res_headers := content_type response;
             res_data := d |});
     if negb (ok response)
     then throw (new_APIError (error_message (res_data result) response)
                   (status response) (Some (res_data result)))
     else ret (res_data result))
    (fun error =>
       if String.eqb (error_name error) "AbortError"
       then throw (new_APIError "Request timeout" 408 None)
       else throw error).

(** *** Notions used to state the properties *)

(** The test that sends [fetchWithRetry] into another attempt, by the
    outcome of the [fetch] of this one. *)
Definition retries (c : APIClient) (attempt : Z) (o : Outcome Response) : bool :=
  match o with
  | Ok response => (status response >=? 500) && (attempt <? retryAttempts c)
  | Throw _ => attempt <? retryAttempts c
  end.

(** The events of a run of attempts numbered from [attempt]: one [fetch]
    per attempt (its time and whether it was sent), and between two
    attempts a delay of [d] times the number of the attempt that failed. *)
Fixpoint schedule (d : Z) (attempt : Z) (fetches : list (Z * bool)) : list Event :=
  match fetches with
  | [] => []
  | (t, sent) :: rest =>
      EvFetch t sent ::
      match rest with
      | [] => []
      | _ :: _ => EvDelay (d * attempt) :: schedule d (attempt + 1) rest
      end
  end.

(** Every call of [fetch] but the first comes no earlier than the call
    before it plus the delay of that attempt, [d] times its number. *)
Fixpoint spaced (d : Z) (attempt : Z) (fetches : list (Z * bool)) : Prop :=
  match fetches with
  | [] => True
  | f :: rest =>
      match rest with
      | [] => True
      | g :: _ => f.1 + Z.max 0 (d * attempt) <= g.1 /\ spaced d (attempt + 1) rest
      end
  end.

(** The time spent in the delays that follow [n] failed attempts numbered
    from [attempt]. *)
Fixpoint backoff (d : Z) (attempt : Z) (n : nat) : Z :=
  match n with
  | O => 0
  | S m => Z.max 0 (d * attempt) + backoff d (attempt + 1) m
  end.

(** The part of [request] after [fetchWithRetry] has returned a response:
    decoding, response interceptors, and the test of [response.ok]. *)
Definition finish (c : APIClient) (response : Response) : Outcome JSValue :=
  match decode response with
  | Throw e => Throw e
  | Ok d =>
      match intercept (responseInterceptors c)
              {| res_status := status response;
                 res_statusText := statusText response;
                 res_headers := content_type response;
                 res_data := d |} with
      | Throw e => Throw e
      | Ok result =>
          if negb (ok response)
          then Throw (new_APIError (error_message (res_data result) response)
                        (status response) (Some (res_data result)))
          else Ok (res_data result)
      end
  end.

(** The [catch] block of [request], applied to what the [try] block
    produced. *)
Definition caught (o : Outcome JSValue) : Outcome JSValue :=
  match o with
  | Ok v => Ok v
  | Throw e =>
      if String.eqb (error_name e) "AbortError"
      then Throw (new_APIError "Request timeout" 408 None)
      else Throw e
  end.


End Client.

(** ** CachedApiService: the cached methods and the clearing of the cache *)

Module CacheService.
Import Cache.

(** The [ApiService] calls the cached methods wrap, each as the fetcher it
    is for [cachedGet]. [getPlayers] is indexed by the text
    [JSON.stringify(params)], which is all the cached method uses of
    [params] besides passing it on. *)
Record Backend : Type := mkBackend {
  api_getTeams : Fetcher;
  api_getPlayers : string -> Fetcher;
  api_getTopPerformers : JSValue -> JSValue -> JSValue -> Fetcher;
  api_getAnalyticsOverview : Fetcher
}.

(** A parameter with a default value: the default stands in for
    [undefined] only. *)
Definition or_default (d v : JSValue) : JSValue :=
  match v with JUndefined => d | _ => v end.

(** [getTeams()] *)
Definition getTeams (b : Backend) : M World JSValue :=
  cachedGet "teams" (api_getTeams b) (Some 3600000).

(** The key [`players_${JSON.stringify(params)}`]. *)
Definition players_key (params_json : string) : string :=
  "players_" +:+ params_json.

(** [getPlayers(params = {})], [params] given by its JSON text. *)
Definition getPlayers (b : Backend) (params_json : string) : M World JSValue :=
  cachedGet (players_key params_json) (api_getPlayers b params_json) (Some 900000).

(** The key [`top_performers_${metric}_${position}_${limit}`]. *)
Definition top_performers_key (metric position limit : JSValue) : string :=
  "top_performers_" +:+ to_string metric +:+ "_" +:+ to_string position
    +:+ "_" +:+ to_string limit.

(** [getTopPerformers(metric = 'total_points', position = null, limit = 20)] *)
Definition getTopPerformers (b : Backend) (metric position limit : JSValue) : M World JSValue :=
  let metric := or_default (JStr "total_points") metric in
  let position := or_default JNull position in
  let limit := or_default (JNum 20) limit in
  cachedGet (top_performers_key metric position limit)
    (api_getTopPerformers b metric position limit) (Some 1800000).

(** [getAnalyticsOverview()] *)
Definition getAnalyticsOverview (b : Backend) : M World JSValue :=
  cachedGet "analytics_overview" (api_getAnalyticsOverview b) (Some 1800000).

(** A cached method keeps what it fetched for [life] milliseconds: after a
    miss whose fetcher returned a value other than [null], a second call
    made no more than [life] after the first one settled returns that
    value and fetches nothing. *)
Definition served_for (life : Z) (key : string) (f : Fetcher)
    (call : M World JSValue) : Prop :=
  forall w v dt,
    (get (clock w) key (manager w)).1 = JNull ->
    settles (f (clock w)) = Ok v ->
    v <> JNull ->
    Z.max 0 dt <= life ->
    (call w).1 = Ok v /\
    fetched (call w).2 = fetched w ++ [(key, clock w)] /\
    call (advance dt (call w).2) = (Ok v, advance dt (call w).2).

(** [Array.from(cacheManager.cache.keys())] *)
Definition cache_keys (cm : CacheManager) : list string := (map_to_list (cache cm)).*1.

(** [keys.forEach(key => { if (test(key)) cacheManager.delete(key); })] *)
Definition delete_where (test : string -> bool) (keys : list string)
    (cm : CacheManager) : CacheManager :=
  fold_left (fun cm key => if test key then delete_key key cm else cm) keys cm.

(** The test of [clearPlayerCache]. *)
Definition is_player_key (key : string) : bool :=
  String.prefix "players_" key || String.prefix "top_performers_" key.

(** [clearPlayerCache()] *)
Definition clearPlayerCache (cm : CacheManager) : CacheManager :=
  delete_where is_player_key (cache_keys cm) cm.

(** The test of [clearTeamCache] for a given [teamId]. *)
Definition is_team_key (teamId : JSValue) (key : string) : bool :=
  if truthy teamId
  then Client.includes ("team_" +:+ to_string teamId) key
  else String.prefix "team_" key || String.eqb key "teams".

(** [clearTeamCache(teamId = null)] *)
Definition clearTeamCache (teamId : JSValue) (cm : CacheManager) : CacheManager :=
  let teamId := or_default JNull teamId in
  delete_where (is_team_key teamId) (cache_keys cm) cm.

End CacheService.

(** ** ErrorHandler *)

Module Handler.

(** What a caller hands to [handle]: an error object, as the [catch]
    blocks around the calls of the API receive it, or any other value, as
    the listeners of 'error' and 'unhandledrejection' pass [e.error] and
    [e.reason] on, which can be [null] or whatever a promise was rejected
    with. *)
Inductive Raised : Type :=
| Err (e : JSError)
| Val (v : JSValue).

(** What [handle] returns: [{ message, type, originalError }]. *)
Record Handled : Type := mkHandled {
  message : JSValue;
  type : string;
  originalError : Raised
}.

(** The page as [ErrorHandler] changes it: the lines of [console.error]
    and the notifications shown, each with its text and type. The removal
    of a notification after five seconds is not part of it. *)
Record Page : Type := mkPage {
  console : list string;
  notifications : list (string * string)
}.

(** [showNotification(message, type = 'error')]: the message is
    interpolated into the markup of the notification. *)
Definition showNotification (msg : JSValue) (ty : option string) : M Page unit :=
  modify (fun p => {| console := console p;
                      notifications := notifications p
                                       ++ [(to_string msg, default "error" ty)] |}).

Definition console_error (line : string) : M Page unit :=
  modify (fun p => {| console := console p ++ [line];
                      notifications := notifications p |}).

(** The message and type [handle] chooses for an error; the [switch] on
    [error.status] compares with each case in turn. *)
Definition classify (error : JSError) : JSValue * string :=
  let message := JStr "An unexpected error occurred" in
  let type := "error" in
  match error with
  | APIError text status data =>
      if status =? 400 then
        (if truthy (opt_message data) then opt_message data
         else JStr "Invalid request data", "warning")
      else if status =? 404 then (JStr "Resource not found", "warning")
      else if status =? 429 then
        (JStr "Too many requests. Please wait a moment.", "warning")
      else if status =? 500 then (JStr "Server error. Please try again later.", type)
      else if status =? 503 then (JStr "Service temporarily unavailable", type)
      else (if negb (String.eqb text EmptyString) then JStr text else message, type)
  | NativeError name text =>
      if String.eqb name "NetworkError" || Client.includes "fetch" text
      then (JStr "Network error. Please check your connection.", "warning")
      else (message, type)
  end.

(** The [TypeError] of the engine; its text differs between engines and
    is left out. *)
Definition TypeError : JSError := NativeError "TypeError" EmptyString.

(** [v.name] and [v.message] on a value that is not an error object:
    reading a property of [null] or [undefined] throws, an object has the
    properties it was given, and the primitives and arrays have neither of
    the two. *)
Definition property (name : string) (v : JSValue) : Outcome JSValue :=
  match v with
  | JUndefined | JNull => Throw TypeError
  | JObj fields => Ok (field name fields)
  | _ => Ok JUndefined
  end.

(** [v === text] *)
Definition is_text (text : string) (v : JSValue) : bool :=
  match v with
  | JStr s => String.eqb s text
  | _ => false
  end.

(** [m.includes('fetch')]: the search in a string, the membership test of
    an array, and a [TypeError] for every other value, which is [null] or
    [undefined] or has no method of that name. *)
Definition includes_fetch (m : JSValue) : Outcome bool :=
  match m with
  | JStr s => Ok (Client.includes "fetch" s)
  | JArr items => Ok (existsb (is_text "fetch") items)
  | _ => Throw TypeError
  end.

(** The same choice for a value that is not an error object: it is no
    instance of [APIError], so only the test of the [else if] applies, and
    that test throws where the value has no [name] or no [message] to
    search. *)
Definition classify_value (v : JSValue) : Outcome (JSValue * string) :=
  let network := (JStr "Network error. Please check your connection.", "warning") in
  let unexpected := (JStr "An unexpected error occurred", "error") in
  match property "name" v with
  | Throw e => Throw e
  | Ok name =>
      if is_text "NetworkError" name then Ok network
      else
        match property "message" v with
        | Throw e => Throw e
        | Ok m =>
            match includes_fetch m with
            | Throw e => Throw e
            | Ok found => Ok (if found then network else unexpected)
            end
        end
  end.

(** [handle(error, context = '')]: the line for the console is written
    first, and nothing is shown when the classification throws. *)
Definition handle (error : Raised) (context : string) : M Page Handled :=
  console_error ("Error in " +:+ context +:+ ":");;
  chosen ← lift_outcome match error with
                        | Err e => Ok (classify e)
                        | Val v => classify_value v
                        end;
  showNotification chosen.1 (Some chosen.2);;
  mret {| message := chosen.1; type := chosen.2; originalError := error |}.

End Handler.

(** ** Runs of the queue and of the network *)

Module Runs.
Import Queue Client.

(** Settling, one after the other, the operation awaited longest, each
    with the next of the given results. *)
Fixpoint drain (results : list (Outcome JSValue)) (s : Sys) : Sys :=
  match results with
  | [] => s
  | r :: rest =>
      match inflight s with
      | [] => s
      | op :: _ => drain rest (step s (Settle op r))
      end
  end.

(** The operations submitted and not yet settled. *)
Definition outstanding (s : Sys) : Z :=
  Z.of_nat (length (submitted s)) - Z.of_nat (length (settled s)).

(** An attempt that [fetchWithRetry] follows by another one while attempts
    are left: a transport failure, or a response of status 500 or more. *)
Definition transient (b : NetBehaviour) : bool :=
  match b with
  | Fails _ _ => true
  | Responds _ r => status r >=? 500
  | Hangs => false
  end.

Definition duration (b : NetBehaviour) : Z :=
  match b with
  | Responds d _ | Fails d _ => Z.max 0 d
  | Hangs => 0
  end.

(** The time taken by the given attempts, numbered from [attempt], each
    with the delay that follows it. *)
Fixpoint elapsed (d : Z) (attempt : Z) (attempts : list NetBehaviour) : Z :=
  match attempts with
  | [] => 0
  | b :: rest => duration b + Z.max 0 (d * attempt) + elapsed d (attempt + 1) rest
  end.

(** The network answers the calls from the [k]-th on as listed. *)
Definition answers (net : Network) (config : Config) (k : nat)
    (attempts : list NetBehaviour) : Prop :=
  forall i b, attempts !! i = Some b -> net config (k + i)%nat = b.

End Runs.

(** ** Sample inputs *)

Module CacheSamples.
Import Cache.

(** A cache holding one entry that expires at clock reading 10. *)
Definition sample_manager : CacheManager :=
  set 0 "teams" (JStr "old") (Some 10) (new_CacheManager None).

Definition failing_fetcher : Fetcher :=
  fun _ => {| took := 5; settles := Throw (NativeError "TypeError" "Failed to fetch") |}.

Definition null_fetcher : Fetcher :=
  fun _ => {| took := 5; settles := Ok JNull |}.

Definition world_at (t : Z) (cm : CacheManager) : World :=
  {| clock := t; manager := cm; fetched := []; console := [] |}.

End CacheSamples.

Module ClientSamples.
Import Client.

(** The client of [api.js], on a local host. *)
Definition api : APIClient := new_APIClient API_CONFIG true.

Definition start : World := {| now := 0; calls := 0; trace := []; yielded := false |}.

Definition response_with (code : Z) (reason : string) (payload : JSValue) : Response :=
  {| status := code; statusText := reason;
     content_type := Some "application/json; charset=utf-8";
     json := Ok payload; text := Ok EmptyString |}.

Definition unavailable : Response :=
  response_with 503 "Service Unavailable" (JObj [("message", JStr "down")]).



Definition failed_to_fetch : JSError := NativeError "TypeError" "Failed to fetch".

(** Networks that treat every call alike. *)
Definition silent : Network := fun _ _ => Hangs.

End ClientSamples.

Module MoreSamples.
Import Client ClientSamples.

(** A response that is ok, with a JSON body. *)
Definition teams_found : Response :=
  response_with 200 "OK" (JArr [JObj [("name", JStr "Arsenal")]]).

(** A network that fails once, answers 503 once, and then answers 200. *)
Definition flaky : Network :=
  fun _ k =>
    match k with
    | O => Fails 20 failed_to_fetch
    | S O => Responds 30 unavailable
    | _ => Responds 40 teams_found
    end.

Definition sent_config : Config :=
  {| method := "GET"; headers := default_headers; body := None;
     url := "http://localhost:8000/api/v2/teams/" |}.

(** A backend whose calls all take 50 ms and return the same list. *)
Definition steady : CacheService.Backend :=
  let f : Cache.Fetcher :=
    fun _ => {| Cache.took := 50;
                Cache.settles := Ok (JArr [JObj [("name", JStr "Arsenal")]]) |} in
  {| CacheService.api_getTeams := f;
     CacheService.api_getPlayers := fun _ => f;
     CacheService.api_getTopPerformers := fun _ _ _ => f;
     CacheService.api_getAnalyticsOverview := f |}.

Definition blank_page : Handler.Page :=
  {| Handler.console := []; Handler.notifications := [] |}.

End MoreSamples.

(** * Properties *)

(** ** The response cache *)

Module CacheFacts.
Import Cache CacheSamples.

(** [get] by cases on the stored item. *)
Lemma get_absent now key cm :
  cache cm !! key = None -> get now key cm = (JNull, cm).
Proof. intros H. unfold get. by rewrite H. Qed.

Lemma get_live now key cm item :
  cache cm !! key = Some item -> now <= expiry item ->
  get now key cm = (data item, cm).
Proof.
  intros H Hle. unfold get. rewrite H.
  destruct (now >? expiry item) eqn:E; [lia | done].
Qed.

Lemma get_stale now key cm item :
  cache cm !! key = Some item -> expiry item < now ->
  get now key cm = (JNull, with_cache cm (delete key (cache cm))).
Proof.
  intros H Hlt. unfold get. rewrite H.
  destruct (now >? expiry item) eqn:E; [done | lia].
Qed.

(** [get] never adds or changes an entry: it returns the manager as it
    was, or with the looked-up key removed. *)
Lemma get_manager now key cm :
  (get now key cm).2 = cm \/
  (get now key cm).2 = with_cache cm (delete key (cache cm)).
Proof.
  unfold get. destruct (cache cm !! key) as [item|]; [|by left].
  destruct (now >? expiry item); [by right | by left].
Qed.

Lemma get_entries now key cm k item :
  cache (get now key cm).2 !! k = Some item -> cache cm !! k = Some item.
Proof.
  destruct (get_manager now key cm) as [-> | ->]; [done|].
  simpl. rewrite lookup_delete_Some. tauto.
Qed.

Lemma get_other now key cm k :
  k <> key -> cache (get now key cm).2 !! k = cache cm !! k.
Proof.
  intros Hne. destruct (get_manager now key cm) as [-> | ->]; [done|].
  simpl. by rewrite lookup_delete_ne.
Qed.

Lemma get_defaultTTL now key cm : defaultTTL (get now key cm).2 = defaultTTL cm.
Proof. by destruct (get_manager now key cm) as [-> | ->]. Qed.

(** The answer of a lookup depends on the entry under its key alone. *)
Lemma get_answer now key cm1 cm2 :
  cache cm1 !! key = cache cm2 !! key -> (get now key cm1).1 = (get now key cm2).1.
Proof.
  intros H. unfold get. rewrite H. destruct (cache cm2 !! key) as [item|]; [|done].
  by destruct (now >? expiry item).
Qed.

(** A lookup leaves every later lookup with the answer it would have had
    without it. *)
Lemma get_after_get now key cm t k :
  now <= t -> (get t k (get now key cm).2).1 = (get t k cm).1.
Proof.
  intros Hle. unfold get at 2.
  destruct (cache cm !! key) as [item|] eqn:E; [|done].
  destruct (now >? expiry item) eqn:G; [|done]. simpl.
  destruct (decide (k = key)) as [->|Hne].
  - unfold get. simpl. rewrite lookup_delete_eq, E.
    by destruct (t >? expiry item) eqn:G'; [|lia].
  - apply get_answer. simpl. by apply lookup_delete_ne.
Qed.

(** A lookup that finds a stored [null] and one that finds nothing at all
    both answer [null]. *)
Lemma get_null_after_set now t key ttl cm :
  (get now key (set t key JNull ttl cm)).1 = JNull.
Proof.
  unfold get, set. simpl. rewrite lookup_insert_eq. simpl.
  by destruct (now >? _).
Qed.

(** [cachedGet] on a miss whose fetcher throws. *)
Lemma cachedGet_miss_throw key fetcher ttl w e :
  (get (clock w) key (manager w)).1 = JNull ->
  settles (fetcher (clock w)) = Throw e ->
  cachedGet key fetcher ttl w =
    (Throw e,
     {| clock := clock w + Z.max 0 (took (fetcher (clock w)));
        manager := (get (clock w) key (manager w)).2;
        fetched := fetched w ++ [(key, clock w)];
        console := console w ++ ["Failed to fetch data for key " +:+ key +:+ ":"] |}).
Proof.
  intros Hnull Hthrow.
  unfold cachedGet, mbind, M_bind, bind, cache_get.
  destruct (get (clock w) key (manager w)) as [v cm] eqn:G.
  simpl in Hnull. subst v. simpl.
  unfold try_catch, call_fetcher. simpl. rewrite Hthrow. reflexivity.
Qed.

(** [cachedGet] on a miss whose fetcher returns a value. *)
Lemma cachedGet_miss_ok key fetcher ttl w v :
  (get (clock w) key (manager w)).1 = JNull ->
  settles (fetcher (clock w)) = Ok v ->
  cachedGet key fetcher ttl w =
    (Ok v,
     {| clock := clock w + Z.max 0 (took (fetcher (clock w)));
        manager := set (clock w + Z.max 0 (took (fetcher (clock w)))) key v ttl
                     (get (clock w) key (manager w)).2;
        fetched := fetched w ++ [(key, clock w)];
        console := console w |}).
Proof.
  intros Hnull Hok.
  unfold cachedGet, mbind, M_bind, bind, cache_get.
  destruct (get (clock w) key (manager w)) as [v0 cm] eqn:G.
  simpl in Hnull. subst v0. simpl.
  unfold try_catch, call_fetcher. simpl. rewrite Hok. reflexivity.
Qed.

(** [getStats] draws the line where [get] does: at the instant of its
    expiry an entry still counts as active. *)
Example getStats_at_expiry :
  getStats 10 sample_manager = {| active := 1; expired := 0; total := 1 |} /\
  getStats 11 sample_manager = {| active := 0; expired := 1; total := 1 |}.
Proof. split; vm_compute; reflexivity. Qed.

(** C2, as the specification words it: an entry is absent from its expiry
    on. The code keeps it through the instant [now = expiry]. *)
Lemma C2_absent_at_expiry_fails :
  ~ (forall now key cm item,
       cache cm !! key = Some item -> expiry item <= now ->
       (get now key cm).1 = JNull).
Proof.
  intros H.
  specialize (H 10 "teams" sample_manager
                {| data := JStr "old"; expiry := 10 |}).
  assert (cache sample_manager !! "teams"
          = Some {| data := JStr "old"; expiry := 10 |}) as Hin
    by (unfold sample_manager, set; simpl; apply lookup_insert_eq).
  specialize (H Hin ltac:(simpl; lia)).
  rewrite (get_live _ _ _ _ Hin) in H by (simpl; lia).
  discriminate H.
Qed.

(** C2 (amended): for an entry stored under [key], [get(key)] returns the
    stored value and leaves the cache alone at any time up to and
    including the expiry timestamp ([now <= expiry]); strictly after the
    expiry it returns [null] and removes the entry on that lookup. *)
Theorem C2_get_until_expiry now key cm item :
  cache cm !! key = Some item ->
  (now <= expiry item -> get now key cm = (data item, cm)) /\
  (expiry item < now ->
     (get now key cm).1 = JNull /\
     cache (get now key cm).2 !! key = None /\
     (forall k, k <> key -> cache (get now key cm).2 !! k = cache cm !! k)).
Proof.
  intros Hin. split.
  - intros Hle. by apply get_live.
  - intros Hlt. rewrite (get_stale _ _ _ _ Hin Hlt). simpl.
    split; [done|]. split; [apply lookup_delete_eq|].
    intros k Hne. by apply lookup_delete_ne.
Qed.

Lemma C2_get_until_expiry_witness :
  cache sample_manager !! "teams" = Some {| data := JStr "old"; expiry := 10 |} /\
  get 10 "teams" sample_manager = (JStr "old", sample_manager) /\
  (get 11 "teams" sample_manager).1 = JNull /\
  cache (get 11 "teams" sample_manager).2 !! "teams" = None.
Proof.
  assert (cache sample_manager !! "teams"
          = Some {| data := JStr "old"; expiry := 10 |}) as Hin
    by (unfold sample_manager, set; simpl; apply lookup_insert_eq).
  split; [exact Hin|].
  destruct (C2_get_until_expiry 10 "teams" sample_manager _ Hin) as [Hlive _].
  destruct (C2_get_until_expiry 11 "teams" sample_manager _ Hin) as [_ Hstale].
  split; [apply Hlive; simpl; lia|].
  destruct Hstale as (H1 & H2 & _); [simpl; lia|].
  split; [exact H1 | exact H2].
Defined.

(** C7: a [set(key, v2, ttl2)] after a [set(key, v1, ttl1)] replaces value
    and expiry: the entry under [key] is the second one, an unexpired
    [get(key)] returns [v2], the cache is the one the second [set] alone
    would have produced, and it has as many entries as after the first
    [set]. *)
Theorem C7_set_replaces t1 t2 now key v1 v2 ttl1 ttl2 cm :
  now <= t2 + default (defaultTTL cm) ttl2 ->
  let cm1 := set t1 key v1 ttl1 cm in
  let cm2 := set t2 key v2 ttl2 cm1 in
  cache cm2 !! key
    = Some {| data := v2; expiry := t2 + default (defaultTTL cm) ttl2 |} /\
  get now key cm2 = (v2, cm2) /\
  cm2 = set t2 key v2 ttl2 cm /\
  size (cache cm2) = size (cache cm1).
Proof.
  intros Hlive cm1 cm2.
  assert (cache cm2 !! key
          = Some {| data := v2; expiry := t2 + default (defaultTTL cm) ttl2 |})
    as Hin by (unfold cm2, cm1, set; simpl; apply lookup_insert_eq).
  split; [exact Hin|]. split.
  - by rewrite (get_live _ _ _ _ Hin).
  - split.
    + unfold cm2, cm1, set, with_cache. simpl. by rewrite insert_insert_eq.
    + unfold cm2, cm1, set. simpl.
      rewrite !map_size_insert, lookup_insert_eq. simpl.
      destruct (cache cm !! key); simpl; lia.
Qed.

Lemma C7_set_replaces_witness :
  15 <= 5 + default (defaultTTL sample_manager) (Some 20) /\
  get 15 "teams" (set 5 "teams" (JNum 2) (Some 20) (set 1 "teams" (JNum 1) (Some 3) sample_manager))
  = (JNum 2, set 5 "teams" (JNum 2) (Some 20) (set 1 "teams" (JNum 1) (Some 3) sample_manager)).
Proof.
  split; [simpl; lia|].
  apply (C7_set_replaces 1 5 15 "teams" (JNum 1) (JNum 2) (Some 3) (Some 20) sample_manager).
  simpl. lia.
Defined.

Lemma unserved_get key cm now : unserved key cm -> (get now key cm).1 = JNull.
Proof.
  intros Hu. unfold get. destruct (cache cm !! key) as [item|] eqn:E; [|done].
  destruct (now >? expiry item); [done|]. simpl. by apply Hu.
Qed.

Lemma unserved_after_get key cm now :
  (get now key cm).1 = JNull -> unserved key (get now key cm).2.
Proof.
  unfold get, unserved. destruct (cache cm !! key) as [item|] eqn:E.
  - destruct (now >? expiry item); simpl.
    + intros _ item'. by rewrite lookup_delete_eq.
    + intros Hd item'. rewrite E. by intros [= <-].
  - simpl. intros _ item'. by rewrite E.
Qed.

Lemma unserved_after_set key cm t ttl : unserved key (set t key JNull ttl cm).
Proof.
  unfold unserved, set. simpl. intros item.
  rewrite lookup_insert_eq. by intros [= <-].
Qed.

(** Whenever the lookup answers [null], the fetcher is called, whatever it
    then does. *)
Lemma cachedGet_miss_fetches key fetcher ttl w :
  (get (clock w) key (manager w)).1 = JNull ->
  fetched (cachedGet key fetcher ttl w).2 = fetched w ++ [(key, clock w)].
Proof.
  intros Hnull. destruct (settles (fetcher (clock w))) as [v|e] eqn:E.
  - by rewrite (cachedGet_miss_ok _ _ _ _ v).
  - by rewrite (cachedGet_miss_throw _ _ _ _ e).
Qed.

(** Repeated calls with a fetcher that yields [null], from a cache that
    does not serve the key. *)
Lemma cachedGet_each_null key fetcher ttl gaps :
  (forall t, settles (fetcher t) = Ok JNull) ->
  forall w, unserved key (manager w) ->
  Forall (eq (Ok JNull)) (cachedGet_each key fetcher ttl gaps w).1 /\
  length (fetched (cachedGet_each key fetcher ttl gaps w).2)
    = (length (fetched w) + length gaps)%nat.
Proof.
  intros Hnull. induction gaps as [|dt gaps IH]; intros w Hu; simpl.
  - split; [constructor | lia].
  - pose proof (unserved_get key (manager w) (clock (advance dt w)) Hu) as Hmiss.
    rewrite (cachedGet_miss_ok key fetcher ttl (advance dt w) JNull Hmiss (Hnull _)).
    match goal with
    | |- context [cachedGet_each key fetcher ttl gaps ?w1] =>
        specialize (IH w1 ltac:(simpl; apply unserved_after_set));
        destruct (cachedGet_each key fetcher ttl gaps w1) as [os w2]
    end.
    simpl in *. destruct IH as [IH1 IH2]. split; [by constructor|].
    rewrite IH2, length_app. simpl. lia.
Qed.

(** C9, as the specification words it: after a failed fetch the cache
    holds under [key] what it held before. An entry that had expired is
    gone, removed by the lookup that precedes the fetch. *)
Lemma C9_cache_unchanged_fails :
  ~ (forall key fetcher ttl w e,
       settles (fetcher (clock w)) = Throw e ->
       (cachedGet key fetcher ttl w).1 = Throw e ->
       cache (manager (cachedGet key fetcher ttl w).2) !! key
         = cache (manager w) !! key).
Proof.
  intros H.
  specialize (H "teams" failing_fetcher None (world_at 20 sample_manager)
                (NativeError "TypeError" "Failed to fetch")
                eq_refl eq_refl).
  vm_compute in H. discriminate H.
Qed.

(** C9 (amended): if the lookup misses and the fetcher throws, [cachedGet]
    rethrows that error and writes nothing to the cache: the cache is the
    one the initial [get(key)] left, so no entry is created or changed,
    other keys are untouched, and the only possible difference is that an
    already expired entry of [key] has been evicted by that lookup. A later
    call with the same key calls its fetcher again, and from the time of
    the call on every lookup answers as it would have answered on the
    cache before the call. *)
Theorem C9_failed_fetch_writes_nothing key fetcher ttl w e :
  (get (clock w) key (manager w)).1 = JNull ->
  settles (fetcher (clock w)) = Throw e ->
  let w' := (cachedGet key fetcher ttl w).2 in
  (cachedGet key fetcher ttl w).1 = Throw e /\
  manager w' = (get (clock w) key (manager w)).2 /\
  (forall k item, cache (manager w') !! k = Some item ->
                  cache (manager w) !! k = Some item) /\
  (forall k, k <> key -> cache (manager w') !! k = cache (manager w) !! k) /\
  (cache (manager w') !! key = cache (manager w) !! key \/
   exists item, cache (manager w) !! key = Some item /\
                expiry item < clock w /\
                cache (manager w') !! key = None) /\
  (forall t k, clock w <= t ->
     (get t k (manager w')).1 = (get t k (manager w)).1) /\
  fetched w' = fetched w ++ [(key, clock w)] /\
  (forall dt fetcher2 ttl2,
     fetched (cachedGet key fetcher2 ttl2 (advance dt w')).2
       = fetched w' ++ [(key, clock w' + Z.max 0 dt)]).
Proof.
  intros Hmiss Hthrow w'. unfold w'.
  rewrite (cachedGet_miss_throw key fetcher ttl w e Hmiss Hthrow). simpl.
  split; [done|]. split; [done|].
  split; [intros k item; apply get_entries|].
  split; [intros k; apply get_other|].
  split; [|split; [intros t k; apply get_after_get|]].
  - unfold get. destruct (cache (manager w) !! key) as [item|] eqn:E; [|by left].
    destruct (clock w >? expiry item) eqn:G; [|by left].
    right. exists item. split; [done|]. split; [lia|]. simpl.
    apply lookup_delete_eq.
  - split; [done|]. intros dt fetcher2 ttl2.
    rewrite cachedGet_miss_fetches; [done|]. simpl.
    apply unserved_get, unserved_after_get, Hmiss.
Qed.

Lemma C9_failed_fetch_writes_nothing_witness :
  (get 20 "teams" sample_manager).1 = JNull /\
  settles (failing_fetcher 20) = Throw (NativeError "TypeError" "Failed to fetch") /\
  (cachedGet "teams" failing_fetcher None (world_at 20 sample_manager)).1
    = Throw (NativeError "TypeError" "Failed to fetch").
Proof.
  split; [reflexivity|]. split; [reflexivity|].
  apply (C9_failed_fetch_writes_nothing "teams" failing_fetcher None
           (world_at 20 sample_manager)); reflexivity.
Defined.

(** C10: [get] answers [null], and leaves the cache as it is, both for a
    key that is absent and for a key whose unexpired entry stores [null].
    Hence when the fetcher yields [null], [cachedGet] stores that [null]
    and still calls the fetcher on every later call: each call returns
    [null] and adds one fetcher invocation. *)
Theorem C10_null_is_never_served key fetcher ttl gaps w :
  (forall t, settles (fetcher t) = Ok JNull) ->
  (get (clock w) key (manager w)).1 = JNull ->
  (forall now cm, cache cm !! key = None -> get now key cm = (JNull, cm)) /\
  (forall now cm exp,
     cache cm !! key = Some {| data := JNull; expiry := exp |} ->
     now <= exp -> get now key cm = (JNull, cm)) /\
  let w1 := (cachedGet key fetcher ttl w).2 in
  (cachedGet key fetcher ttl w).1 = Ok JNull /\
  (exists exp, cache (manager w1) !! key = Some {| data := JNull; expiry := exp |}) /\
  fetched w1 = fetched w ++ [(key, clock w)] /\
  Forall (eq (Ok JNull)) (cachedGet_each key fetcher ttl gaps w1).1 /\
  length (fetched (cachedGet_each key fetcher ttl gaps w1).2)
    = (length (fetched w1) + length gaps)%nat.
Proof.
  intros Hnull Hmiss.
  split; [intros now cm; apply get_absent|].
  split; [intros now cm exp Hin Hle; by rewrite (get_live _ _ _ _ Hin)|].
  intros w1. unfold w1.
  rewrite (cachedGet_miss_ok key fetcher ttl w JNull Hmiss (Hnull _)). simpl.
  split; [done|]. split.
  - eexists. unfold set. simpl. apply lookup_insert_eq.
  - split; [done|]. apply cachedGet_each_null; [done|].
    simpl. apply unserved_after_set.
Qed.

Lemma C10_null_is_never_served_witness :
  (forall t, settles (null_fetcher t) = Ok JNull) /\
  (get 20 "teams" sample_manager).1 = JNull /\
  length (fetched (cachedGet_each "teams" null_fetcher (Some 1000) [1; 2; 3]
                     (cachedGet "teams" null_fetcher (Some 1000)
                        (world_at 20 sample_manager)).2).2) = 4%nat.
Proof.
  split; [reflexivity|]. split; [reflexivity|].
  pose proof (C10_null_is_never_served "teams" null_fetcher (Some 1000) [1; 2; 3]
                (world_at 20 sample_manager) (fun _ => eq_refl) eq_refl) as H.
  destruct H as (_ & _ & _ & _ & Hf & _ & Hlen).
  rewrite Hlen, Hf. reflexivity.
Defined.

End CacheFacts.

(** ** The concurrency limiter *)

Module QueueFacts.
Import Queue.

(** [processNext] by cases. *)
Lemma processNext_full q :
  maxConcurrent q <= running q -> processNext q = (q, None).
Proof.
  intros H. unfold processNext.
  destruct (running q >=? maxConcurrent q) eqn:E; [done | lia].
Qed.

Lemma processNext_idle q :
  queue q = [] -> processNext q = (q, None).
Proof.
  intros H. unfold processNext. rewrite H. simpl.
  by rewrite orb_true_r.
Qed.

Lemma processNext_starts q op rest :
  running q < maxConcurrent q -> queue q = op :: rest ->
  processNext q =
    ({| maxConcurrent := maxConcurrent q; running := running q + 1; queue := rest |},
     Some op).
Proof.
  intros Hlt Hq. unfold processNext. rewrite Hq. simpl.
  destruct (running q >=? maxConcurrent q) eqn:E; [lia | done].
Qed.

Lemma processNext_guard q q' op :
  processNext q = (q', Some op) ->
  running q < maxConcurrent q /\
  queue q = op :: queue q' /\
  running q' = running q + 1 /\
  maxConcurrent q' = maxConcurrent q.
Proof.
  unfold processNext.
  destruct (running q >=? maxConcurrent q) eqn:E; simpl; [done|].
  destruct (queue q) as [|x rest]; simpl; [done|].
  intros [= <- <-]. simpl. repeat split; lia.
Qed.

Lemma existsb_eqb_elem op (l : list Op) :
  existsb (Nat.eqb op) l = true <-> op ∈ l.
Proof.
  rewrite existsb_exists. split.
  - intros (x & Hin & Heq). apply Nat.eqb_eq in Heq. subst x.
    by apply list_elem_of_In.
  - intros Hin. exists op. split; [by apply list_elem_of_In | apply Nat.eqb_refl].
Qed.

Lemma remove_first_perm op (l : list Op) :
  op ∈ l -> l ≡ₚ op :: remove_first op l.
Proof.
  induction l as [|x l IH]; intros Hin; [by apply elem_of_nil in Hin|].
  simpl. destruct (Nat.eqb x op) eqn:E.
  - apply Nat.eqb_eq in E. by subst x.
  - apply Nat.eqb_neq in E. apply elem_of_cons in Hin as [->|Hin]; [done|].
    rewrite (IH Hin) at 1. apply Permutation_swap.
Qed.

Lemma remove_first_length op (l : list Op) :
  op ∈ l -> length l = S (length (remove_first op l)).
Proof. intros Hin. by rewrite (remove_first_perm op l Hin) at 1. Qed.

Lemma started_after_settle (st fin waiting rest : list Op) op adm :
  st ≡ₚ fin ++ waiting -> waiting ≡ₚ op :: rest ->
  st ++ adm ≡ₚ (fin ++ [op]) ++ rest ++ adm.
Proof.
  intros H1 H2. rewrite H1, H2. rewrite <- !app_assoc. done.
Qed.

(** The invariant holds initially and every event keeps it. *)
Lemma init_inv N : 0 <= N -> Inv N (init (Some N)).
Proof. intros H. split; simpl; try done; lia. Qed.

Lemma step_inv N s e : Inv N s -> Inv N (step s e).
Proof.
  intros [Hmax Hrun Hbound Hbusy Hfifo Hperm]. destruct e as [op | op result]; simpl.
  - unfold add.
    destruct (queue (rq s)) as [|x rest] eqn:Q.
    + destruct (Z_lt_le_dec (running (rq s)) (maxConcurrent (rq s))) as [Hlt|Hge].
      * rewrite (processNext_starts _ op []) by (simpl; done || lia).
        split; simpl.
        -- done.
        -- rewrite length_app. simpl. lia.
        -- lia.
        -- done.
        -- rewrite Hfifo. by rewrite !app_nil_r.
        -- rewrite Hperm. by rewrite app_assoc.
      * rewrite processNext_full by (simpl; lia).
        split; simpl; rewrite ?app_nil_r.
        -- done.
        -- done.
        -- done.
        -- intros _. lia.
        -- rewrite Hfifo. by rewrite app_nil_r.
        -- done.
    + rewrite processNext_full by (simpl; rewrite Hbusy; [lia | done]).
      split; simpl; rewrite ?app_nil_r.
      * done.
      * done.
      * done.
      * intros _. by apply Hbusy.
      * rewrite Hfifo. by rewrite <- app_assoc.
      * done.
  - destruct (existsb (Nat.eqb op) (inflight s)) eqn:E; [|done].
    apply existsb_eqb_elem in E.
    pose proof (remove_first_length op _ E) as Hlen.
    pose proof (remove_first_perm op _ E) as Hrm.
    unfold finally.
    destruct (queue (rq s)) as [|x rest] eqn:Q.
    + rewrite processNext_idle by done.
      split; simpl; rewrite ?app_nil_r.
      * done.
      * lia.
      * lia.
      * done.
      * by rewrite Hfifo, app_nil_r.
      * rewrite map_app. simpl.
        pose proof (started_after_settle _ _ _ _ _ [] Hperm Hrm) as Hnext.
        by rewrite !app_nil_r in Hnext.
    + rewrite (processNext_starts _ x rest) by (simpl; done || lia).
      split; simpl.
      * done.
      * rewrite length_app. simpl. lia.
      * lia.
      * intros _. rewrite Hbusy; [lia | done].
      * rewrite Hfifo. by rewrite <- app_assoc.
      * rewrite map_app. simpl.
        apply (started_after_settle _ _ _ _ _ [x] Hperm Hrm).
Qed.

Lemma run_inv N events : forall s, Inv N s -> Inv N (run s events).
Proof.
  induction events as [|e events IH]; intros s H; simpl; [done|].
  apply IH. by apply step_inv.
Qed.

Lemma run_app s events1 events2 :
  run s (events1 ++ events2) = run (run s events1) events2.
Proof. apply fold_left_app. Qed.

Lemma reachable_inv N events : 0 <= N -> Inv N (run (init (Some N)) events).
Proof. intros H. by apply run_inv, init_inv. Qed.

(** With limit 1 the started operations are, in order, those that have
    settled followed by the one awaited, if any. *)
Lemma step_serial s e :
  Inv 1 s ->
  started s = map fst (settled s) ++ inflight s ->
  started (step s e) = map fst (settled (step s e)) ++ inflight (step s e).
Proof.
  intros [Hmax Hrun Hbound Hbusy Hfifo Hperm] Hser.
  destruct e as [op | op result]; simpl.
  - destruct (add op (rq s)) as [q [x|]] eqn:A; simpl.
    + apply processNext_guard in A as (Hlt & _). simpl in Hlt.
      destruct (inflight s); [|simpl in Hrun; lia].
      rewrite Hser. by rewrite <- app_assoc.
    + by rewrite !app_nil_r.
  - destruct (existsb (Nat.eqb op) (inflight s)) eqn:E; [|done].
    apply existsb_eqb_elem in E.
    destruct (inflight s) as [|y [|z l]] eqn:I.
    + by apply elem_of_nil in E.
    + apply list_elem_of_singleton in E. subst y.
      destruct (finally (rq s)) as [q o]. simpl.
      rewrite Nat.eqb_refl, map_app, Hser. simpl.
      by rewrite <- !app_assoc.
    + simpl in Hrun. lia.
Qed.

Lemma run_serial events : forall s,
  Inv 1 s ->
  started s = map fst (settled s) ++ inflight s ->
  started (run s events) = map fst (settled (run s events)) ++ inflight (run s events).
Proof.
  induction events as [|e events IH]; intros s Hinv Hser; simpl; [done|].
  apply IH; [by apply step_inv | by apply step_serial].
Qed.

(** The scenario of the specification: limit 1 and three operations. *)
Lemma three_operations_limit_one a b c r1 r2 :
  let s3 := run (init (Some 1)) [Submit a; Submit b; Submit c] in
  let s4 := step s3 (Settle a r1) in
  let s5 := step s4 (Settle b r2) in
  (started s3 = [a] /\ queue (rq s3) = [b; c]) /\
  (started s4 = [a; b] /\ queue (rq s4) = [c] /\ settled s4 = [(a, r1)]) /\
  (started s5 = [a; b; c] /\ queue (rq s5) = [] /\ settled s5 = [(a, r1); (b, r2)]).
Proof.
  intros s3 s4 s5.
  assert (s3 = {| rq := {| maxConcurrent := 1; running := 1; queue := [b; c] |};
                  submitted := [a; b; c]; started := [a]; inflight := [a];
                  settled := [] |}) as E3 by reflexivity.
  assert (s4 = {| rq := {| maxConcurrent := 1; running := 1; queue := [c] |};
                  submitted := [a; b; c]; started := [a; b]; inflight := [b];
                  settled := [(a, r1)] |}) as E4.
  { unfold s4. rewrite E3. unfold step. simpl. by rewrite !Nat.eqb_refl. }
  assert (s5 = {| rq := {| maxConcurrent := 1; running := 1; queue := [] |};
                  submitted := [a; b; c]; started := [a; b; c]; inflight := [c];
                  settled := [(a, r1); (b, r2)] |}) as E5.
  { unfold s5. rewrite E4. unfold step. simpl. by rewrite !Nat.eqb_refl. }
  rewrite E3, E4, E5. simpl. done.
Qed.

(** C1: in a queue built with [maxConcurrent = N], [N >= 1], after any
    sequence of submissions and completions the counter [running] equals
    the number of operations started and not yet settled and is at most
    [N]; and [processNext] starts an operation only from a state where
    [running < maxConcurrent]. *)
Theorem C1_running_never_exceeds_limit N events :
  1 <= N ->
  let s := run (init (Some N)) events in
  maxConcurrent (rq s) = N /\
  running (rq s) = Z.of_nat (length (inflight s)) /\
  0 <= running (rq s) <= N /\
  started s ≡ₚ map fst (settled s) ++ inflight s /\
  (forall q q' op, processNext q = (q', Some op) -> running q < maxConcurrent q).
Proof.
  intros HN s.
  destruct (reachable_inv N events ltac:(lia)) as [Hmax Hrun Hbound _ _ Hperm].
  fold s in Hmax, Hrun, Hbound, Hperm.
  repeat split; try done; try lia.
  intros q q' op H. by apply processNext_guard in H as [? _].
Qed.

Lemma C1_running_never_exceeds_limit_witness :
  1 <= 2 /\
  running (rq (run (init (Some 2))
                 [Submit 1%nat; Submit 2%nat; Submit 3%nat;
                  Settle 1%nat (Ok JNull); Submit 4%nat])) <= 2.
Proof.
  split; [lia|].
  pose proof (C1_running_never_exceeds_limit 2
                [Submit 1%nat; Submit 2%nat; Submit 3%nat;
                 Settle 1%nat (Ok JNull); Submit 4%nat]
                ltac:(lia)) as H.
  destruct H as (_ & _ & [_ Hle] & _). exact Hle.
Defined.

(** C6: for a limit [N >= 1] and any sequence of submissions and
    completions, the operations started so far followed by those still
    queued are the operations submitted, in submission order; nothing is
    queued while a slot is free; a submitted operation starts at once when
    fewer than [N] are running and is queued behind the others when [N]
    are; when a running operation settles, with a
    result or with an error, the head of the queue is started in that same
    step. With limit 1 every started operation but the last has settled
    before the next one starts; in particular, of three submitted
    operations the second starts when the first settles and before the
    third. *)
Theorem C6_fifo_admission N events :
  1 <= N ->
  let s := run (init (Some N)) events in
  submitted s = started s ++ queue (rq s) /\
  (queue (rq s) <> [] -> running (rq s) = N) /\
  (forall op,
     (running (rq s) < N -> started (step s (Submit op)) = started s ++ [op]) /\
     (running (rq s) = N ->
        started (step s (Submit op)) = started s /\
        queue (rq (step s (Submit op))) = queue (rq s) ++ [op])) /\
  (forall op result next rest,
     op ∈ inflight s -> queue (rq s) = next :: rest ->
     started (step s (Settle op result)) = started s ++ [next] /\
     queue (rq (step s (Settle op result))) = rest /\
     next ∈ inflight (step s (Settle op result))) /\
  (N = 1 ->
     started s = map fst (settled s) ++ inflight s /\
     (length (inflight s) <= 1)%nat) /\
  (forall a b c r1 r2,
     let s3 := run (init (Some 1)) [Submit a; Submit b; Submit c] in
     let s4 := step s3 (Settle a r1) in
     let s5 := step s4 (Settle b r2) in
     started s3 = [a] /\ started s4 = [a; b] /\ started s5 = [a; b; c]).
Proof.
  intros HN s.
  pose proof (reachable_inv N events ltac:(lia)) as Hinv. fold s in Hinv.
  destruct Hinv as [Hmax Hrun Hbound Hbusy Hfifo Hperm].
  split; [done|]. split; [done|]. split; [|split; [|split]].
  - intros op. split.
    + intros Hfree. simpl. unfold add.
      destruct (queue (rq s)) as [|x rest] eqn:Q;
        [|specialize (Hbusy ltac:(done)); lia].
      by rewrite (processNext_starts _ op []) by (simpl; done || lia).
    + intros Hfull. simpl. unfold add.
      rewrite processNext_full by (simpl; lia). simpl.
      by rewrite app_nil_r.
  - intros op result next rest Hin Hq. simpl.
    assert (existsb (Nat.eqb op) (inflight s) = true) as ->
      by (by apply existsb_eqb_elem).
    unfold finally.
    rewrite (processNext_starts _ next rest); simpl; [| |done].
    + split; [done|]. split; [done|]. apply elem_of_app. right. by left.
    + rewrite Hbusy; [lia|]. by rewrite Hq.
  - intros ->. split; [|lia].
    apply run_serial; [by apply init_inv | done].
  - intros a b c r1 r2.
    pose proof (three_operations_limit_one a b c r1 r2) as H.
    cbv zeta in *. tauto.
Qed.

Lemma C6_fifo_admission_witness :
  1 <= 1 /\
  started (run (init (Some 1))
             [Submit 7%nat; Submit 8%nat; Submit 9%nat; Settle 7%nat (Throw AbortError)])
  = map fst (settled (run (init (Some 1))
             [Submit 7%nat; Submit 8%nat; Submit 9%nat; Settle 7%nat (Throw AbortError)]))
    ++ inflight (run (init (Some 1))
             [Submit 7%nat; Submit 8%nat; Submit 9%nat; Settle 7%nat (Throw AbortError)]).
Proof.
  split; [lia|].
  pose proof (C6_fifo_admission 1
                [Submit 7%nat; Submit 8%nat; Submit 9%nat; Settle 7%nat (Throw AbortError)]
                ltac:(lia)) as H.
  destruct H as (_ & _ & _ & _ & Hserial & _).
  destruct (Hserial eq_refl) as [Hs _]. exact Hs.
Defined.

End QueueFacts.

(** ** The gateway client *)

Module ClientFacts.
Import Client ClientSamples.

(** [fetchWithRetry] in one equation. *)
Lemma fetchWithRetry_unfold c net config signal attempt w :
  fetchWithRetry c net config signal attempt w =
    let '(o, w1) := fetch net config signal w in
    if retries c attempt o
    then fetchWithRetry c net config signal (attempt + 1)
           (delay (retryDelay c * attempt) w1).2
    else (o, w1).
Proof.
  simp fetchWithRetry.
  destruct (fetch net config signal w) as [[r|e] w1]; simpl.
  - by destruct ((status r >=? 500) && (attempt <? retryAttempts c)).
  - by destruct (attempt <? retryAttempts c).
Qed.

(** [request] in terms of its three stages. *)
Lemma request_unfold c net path options w :
  request c net path options w =
    match intercept (requestInterceptors c) (initial_config c path options) with
    | Throw e => (Throw e, w)
    | Ok config =>
        let r := fetchWithRetry c net config (now w + Z.max 0 (timeout c)) 1
                   (armed w) in
        (caught (match r.1 with
                 | Ok response => finish c response
                 | Throw e => Throw e
                 end), r.2)
    end.
Proof.
  unfold request, mbind, M_bind, bind, lift_outcome, setTimeout, try_catch.
  destruct (intercept (requestInterceptors c) _) as [config|e]; [|done].
  simpl.
  destruct (fetchWithRetry c net config _ 1 (armed w)) as [[response|e] w'] eqn:F;
    simpl.
  - unfold finish, caught, throw, ret.
    destruct (decode response) as [d|e]; simpl;
      [|by destruct (String.eqb (error_name e) "AbortError")].
    destruct (intercept (responseInterceptors c) _) as [result|e]; simpl;
      [|by destruct (String.eqb (error_name e) "AbortError")].
    by destruct (negb (ok response)).
  - unfold throw. simpl.
    by destruct (String.eqb (error_name e) "AbortError").
Qed.


Lemma aborted_early signal w : now w < signal -> aborted signal w = false.
Proof.
  intros H. unfold aborted. destruct (signal <=? now w) eqn:E; [lia|].
  apply andb_false_r.
Qed.

Lemma aborted_yielded signal w :
  yielded w = true -> negb (aborted signal w) = (now w <? signal).
Proof.
  intros H. unfold aborted. rewrite H. simpl.
  destruct (signal <=? now w) eqn:E1, (now w <? signal) eqn:E2; simpl; lia || done.
Qed.

(** One [fetch]: it settles as the network decides before the signal
    aborts, and with an [AbortError] at the abort otherwise. *)
Lemma fetch_responds net config signal w d r :
  net config (calls w) = Responds d r -> now w + Z.max 0 d < signal ->
  fetch net config signal w =
    (Ok r, {| now := now w + Z.max 0 d; calls := S (calls w);
              trace := trace w ++ [EvFetch (now w) true]; yielded := true |}).
Proof.
  intros Hnet Hlt. unfold fetch. rewrite Hnet, aborted_early by lia. simpl.
  by destruct (now w + Z.max 0 d <? signal) eqn:E; [|lia].
Qed.

Lemma fetch_fails net config signal w d e :
  net config (calls w) = Fails d e -> now w + Z.max 0 d < signal ->
  fetch net config signal w =
    (Throw e, {| now := now w + Z.max 0 d; calls := S (calls w);
                 trace := trace w ++ [EvFetch (now w) true]; yielded := true |}).
Proof.
  intros Hnet Hlt. unfold fetch. rewrite Hnet, aborted_early by lia. simpl.
  by destruct (now w + Z.max 0 d <? signal) eqn:E; [|lia].
Qed.



(** What one [fetch] does to the world, whatever the network. *)
Lemma fetch_spec net config signal w :
  let r := fetch net config signal w in
  calls r.2 = S (calls w) /\
  trace r.2 = trace w ++ [EvFetch (now w) (negb (aborted signal w))] /\
  yielded r.2 = true /\
  now w <= now r.2 /\
  ((now r.2 < signal /\
    ((exists d resp, net config (calls w) = Responds d resp /\ r.1 = Ok resp) \/
     (exists d e, net config (calls w) = Fails d e /\ r.1 = Throw e))) \/
   (signal <= now r.2 /\ r.1 = Throw AbortError)).
Proof.
  unfold fetch. destruct (aborted signal w) eqn:A.
  { simpl. repeat split; [lia|]. right. split; [lia | done]. }
  destruct (net config (calls w)) as [d resp|d e|] eqn:N.
  - destruct (now w + Z.max 0 d <? signal) eqn:E; simpl.
    + repeat split; [lia|]. left. split; [lia|]. left. by exists d, resp.
    + repeat split; [lia|]. right. split; [lia | done].
  - destruct (now w + Z.max 0 d <? signal) eqn:E; simpl.
    + repeat split; [lia|]. left. split; [lia|]. right. by exists d, e.
    + repeat split; [lia|]. right. split; [lia | done].
  - simpl. repeat split; [lia|]. right. split; [lia | done].
Qed.


Lemma retries_attempts_left c attempt o :
  retries c attempt o = true -> attempt < retryAttempts c.
Proof.
  destruct o as [resp|e]; simpl; [rewrite andb_true_iff|]; lia.
Qed.

Lemma retries_not c attempt o :
  retries c attempt o = false -> attempt < retryAttempts c ->
  exists resp, o = Ok resp /\ status resp < 500.
Proof.
  destruct o as [resp|e]; simpl.
  - rewrite andb_false_iff. intros [H|H] Hlt; [|lia]. exists resp. split; [done | lia].
  - intros H Hlt. lia.
Qed.


Lemma schedule_cons d attempt t sent f fs :
  schedule d attempt ((t, sent) :: f :: fs)
  = EvFetch t sent :: EvDelay (d * attempt) :: schedule d (attempt + 1) (f :: fs).
Proof. done. Qed.

(** Every run of [fetchWithRetry], whatever the network does: its events
    are a schedule of between one and [retryAttempts - attempt + 1]
    fetches, the first one at the start and each later one no earlier than
    the delay after the one before; it stops before the last allowed
    attempt only on a response below 500; it ends at or after the abort
    only with the [AbortError]; and what it returns or throws otherwise
    comes from the network. *)
Lemma fetchWithRetry_run n : forall c net config signal attempt w,
  Z.to_nat (retryAttempts c - attempt) = n ->
  let r := fetchWithRetry c net config signal attempt w in
  exists fs : list (Z * bool),
    let fetches := (now w, negb (aborted signal w)) :: fs in
    trace r.2 = trace w ++ schedule (retryDelay c) attempt fetches /\
    calls r.2 = (calls w + S (length fs))%nat /\
    (length fs <= n)%nat /\
    Forall (fun f => f.2 = (f.1 <? signal)) fs /\
    spaced (retryDelay c) attempt fetches /\
    ((length fs < n)%nat -> exists resp, r.1 = Ok resp /\ status resp < 500) /\
    now w <= now r.2 /\
    (signal <= now r.2 -> r.1 = Throw AbortError) /\
    (forall e, r.1 = Throw e ->
       e = AbortError \/ exists k d, net config k = Fails d e) /\
    (forall resp, r.1 = Ok resp ->
       now r.2 < signal /\ exists k d, net config k = Responds d resp).
Proof.
  induction n as [|n IH]; intros c net config signal attempt w Hn r; unfold r;
    rewrite fetchWithRetry_unfold;
    destruct (fetch_spec net config signal w) as (Hc & Ht & Hy & Hnow & Hcases);
    destruct (fetch net config signal w) as [o w1]; simpl in Hc, Ht, Hy, Hnow, Hcases;
    destruct (retries c attempt o) eqn:R.
  - apply retries_attempts_left in R. lia.
  - exists []. simpl.
    split; [done|]. split; [lia|]. split; [lia|]. split; [by constructor|].
    split; [done|]. split; [lia|]. split; [done|].
    destruct Hcases as [[Hlt Hsrc] | [Hge ->]].
    + split; [lia|]. split.
      * intros e ->. destruct Hsrc as [(d & resp & _ & [=]) | (d & e' & Hnet & [= <-])].
        right. by exists (calls w), d.
      * intros resp ->. split; [done|].
        destruct Hsrc as [(d & resp' & Hnet & [= <-]) | (d & e & _ & [=])].
        by exists (calls w), d.
    + split; [done|]. split; [intros e [= <-]; by left | done].
  - pose proof (retries_attempts_left _ _ _ R) as Hleft.
    set (w2 := (delay (retryDelay c * attempt) w1).2).
    assert (calls w2 = calls w1 /\
            trace w2 = trace w1 ++ [EvDelay (retryDelay c * attempt)] /\
            now w2 = now w1 + Z.max 0 (retryDelay c * attempt) /\
            yielded w2 = true) as (Hc2 & Ht2 & Hn2 & Hy2)
      by (unfold w2; simpl; repeat split; lia).
    clearbody w2.
    destruct (IH c net config signal (attempt + 1) w2 ltac:(lia))
      as (fs & Htr & Hcalls & Hlen & Hsent & Hspaced & Hearly & Hmono & Hlate & Herr & Hok).
    exists ((now w2, negb (aborted signal w2)) :: fs).
    cbv zeta in Htr, Hspaced |- *.
    rewrite schedule_cons, Htr, Ht2, Ht. simpl length in *.
    split; [by rewrite <- !app_assoc|]. split; [lia|].
    split; [lia|].
    split; [constructor; [by apply aborted_yielded | done]|].
    split; [split; [simpl; lia | done]|].
    split; [intros H; apply Hearly; lia|].
    split; [lia|].
    done.
  - assert (attempt < retryAttempts c) as Hleft by lia.
    destruct (retries_not _ _ _ R Hleft) as (resp & -> & Hst).
    exists []. simpl.
    split; [done|]. split; [lia|]. split; [lia|]. split; [by constructor|].
    split; [done|]. split; [by exists resp|]. split; [done|].
    destruct Hcases as [[Hlt Hsrc] | [Hge [=]]].
    split; [lia|]. split; [done|].
    intros resp' [= <-]. split; [done|].
    destruct Hsrc as [(d & resp' & Hnet & [= <-]) | (d & e & _ & [=])].
    by exists (calls w), d.
Qed.


Lemma backoff_nonneg d attempt n : 0 <= backoff d attempt n.
Proof.
  revert attempt. induction n as [|n IH]; intros attempt; simpl; [lia|].
  specialize (IH (attempt + 1)). lia.
Qed.











(** C3: the client of [api.js] (timeout 30000 ms, three attempts, retry
    delay 1000 ms) on a request whose [fetch] never settles. The first
    [fetch] is aborted at 30000 ms. [fetchWithRetry] then waits 1000 ms and
    calls [fetch] again on the aborted signal, which rejects at once
    without sending anything, waits 2000 ms and calls it a third time, and
    only then does [request] throw the error of status 408: after three
    calls of [fetch] and at 33000 ms, not after one call and at the
    timeout boundary. *)
Theorem C3_retries_after_abort :
  request api silent "/teams/" no_options start
  = (Throw (APIError "Request timeout" 408 JNull),
     {| now := 33000; calls := 3;
        trace := [EvFetch 0 true; EvDelay 1000; EvFetch 31000 false; EvDelay 2000;
                  EvFetch 33000 false];
        yielded := true |}).
Proof. reflexivity. Qed.




End ClientFacts.

(** ** More on the response cache *)

Module CacheMore.
Import Cache CacheService CacheSamples.

Lemma with_cache_id cm : with_cache cm (cache cm) = cm.
Proof. by destruct cm. Qed.

Lemma manager_ext cm1 cm2 :
  cache cm1 = cache cm2 -> defaultTTL cm1 = defaultTTL cm2 -> cm1 = cm2.
Proof. destruct cm1, cm2. simpl. by intros -> ->. Qed.

(** X1: [getStats] splits the entries in two: at any clock reading the
    active and the expired entries together are all the entries of the
    cache. *)
Theorem getStats_partition now cm :
  (active (getStats now cm) + expired (getStats now cm))%nat = total (getStats now cm) /\
  total (getStats now cm) = size (cache cm).
Proof.
  split; [|done]. unfold getStats. simpl.
  rewrite Nat.add_comm, <- map_size_disj_union
    by apply map_disjoint_filter_complement.
  by rewrite map_filter_union_complement.
Qed.

(** X2: an entry stored at time [t] with a time to live [ttl] (the default
    one when none is given) is returned by [get] exactly while
    [now - t <= ttl]; later the lookup answers [null] and leaves the cache
    as [delete(key)] would have left the original one. A negative [ttl]
    therefore stores an entry that is never served. Lookups of other keys
    are not affected by the [set]. *)
Theorem set_get_lifetime t now key v ttl cm :
  let life := default (defaultTTL cm) ttl in
  let cm1 := set t key v ttl cm in
  (now - t <= life -> get now key cm1 = (v, cm1)) /\
  (life < now - t -> get now key cm1 = (JNull, delete_key key cm)) /\
  (life < 0 -> t <= now -> (get now key cm1).1 = JNull) /\
  (forall k, k <> key -> (get now k cm1).1 = (get now k cm).1).
Proof.
  intros life cm1.
  assert (cache cm1 !! key = Some {| data := v; expiry := t + life |}) as Hin
    by (unfold cm1, set; simpl; apply lookup_insert_eq).
  assert (life < now - t -> get now key cm1 = (JNull, delete_key key cm)) as Hold.
  { intros H. rewrite (CacheFacts.get_stale _ _ _ _ Hin) by (simpl; lia).
    f_equal. unfold delete_key, with_cache, cm1, set. simpl.
    by rewrite delete_insert_eq. }
  split; [|split; [done|split]].
  - intros H. rewrite (CacheFacts.get_live _ _ _ _ Hin) by (simpl; lia). done.
  - intros Hneg Hle. rewrite Hold by lia. done.
  - intros k Hne. apply CacheFacts.get_answer. unfold cm1, set. simpl.
    by apply lookup_insert_ne.
Qed.

Lemma set_get_lifetime_witness :
  get 10 "teams" (set 0 "teams" (JNum 7) (Some 10) (new_CacheManager None))
    = (JNum 7, set 0 "teams" (JNum 7) (Some 10) (new_CacheManager None)) /\
  get 11 "teams" (set 0 "teams" (JNum 7) (Some 10) (new_CacheManager None))
    = (JNull, delete_key "teams" (new_CacheManager None)) /\
  (get 5 "teams" (set 5 "teams" (JNum 7) (Some (-1)) (new_CacheManager None))).1 = JNull.
Proof.
  destruct (set_get_lifetime 0 10 "teams" (JNum 7) (Some 10) (new_CacheManager None))
    as (Hlive & _).
  destruct (set_get_lifetime 0 11 "teams" (JNum 7) (Some 10) (new_CacheManager None))
    as (_ & Hstale & _).
  destruct (set_get_lifetime 5 5 "teams" (JNum 7) (Some (-1)) (new_CacheManager None))
    as (_ & _ & Hneg & _).
  split; [apply Hlive; simpl; lia|].
  split; [apply Hstale; simpl; lia|].
  apply Hneg; simpl; lia.
Defined.

(** X3: the lookup that finds an expired entry takes it out of the
    statistics: the expired count and the total drop by one and the active
    count stays. A lookup that finds a live entry or none changes no
    count. *)
Theorem get_eviction_in_stats now key cm :
  (forall item, cache cm !! key = Some item -> expiry item < now ->
     (1 <= expired (getStats now cm))%nat /\
     getStats now (get now key cm).2
       = {| active := active (getStats now cm);
            expired := pred (expired (getStats now cm));
            total := pred (total (getStats now cm)) |}) /\
  ((forall item, cache cm !! key = Some item -> now <= expiry item) ->
     getStats now (get now key cm).2 = getStats now cm).
Proof.
  split.
  - intros item Hin Hold.
    rewrite (CacheFacts.get_stale _ _ _ _ Hin Hold). unfold getStats. simpl.
    assert (filter (fun kv : string * CacheItem => now > expiry kv.2) (cache cm) !! key
            = Some item) as Hexp
      by (apply map_lookup_filter_Some; split; [done | simpl; lia]).
    assert (filter (fun kv : string * CacheItem => ¬ now > expiry kv.2) (cache cm) !! key
            = None) as Hact
      by (apply map_lookup_filter_None; right; intros x Hx; simpl;
          rewrite Hin in Hx; injection Hx as <-; lia).
    split.
    + destruct (size _) eqn:Hs; [|lia].
      apply map_size_empty_inv in Hs. by rewrite Hs, lookup_empty in Hexp.
    + rewrite !map_filter_delete.
      rewrite (map_size_delete_Some key _ (mk_is_Some _ _ Hexp)).
      rewrite (map_size_delete_None key _ Hact).
      rewrite (map_size_delete_Some key _ (mk_is_Some _ _ Hin)).
      done.
  - intros Hlive. destruct (cache cm !! key) as [item|] eqn:Hin.
    + by rewrite (CacheFacts.get_live _ _ _ _ Hin (Hlive _ eq_refl)).
    + by rewrite (CacheFacts.get_absent _ _ _ Hin).
Qed.

Lemma get_eviction_in_stats_witness :
  cache sample_manager !! "teams" = Some {| data := JStr "old"; expiry := 10 |} /\
  getStats 20 (get 20 "teams" sample_manager).2
    = {| active := 0; expired := 0; total := 0 |}.
Proof.
  split; [reflexivity|].
  destruct (get_eviction_in_stats 20 "teams" sample_manager) as [H _].
  destruct (H _ eq_refl ltac:(simpl; lia)) as [_ Heq].
  rewrite Heq. reflexivity.
Defined.

(** X4: after [delete(key)] a lookup of [key] answers [null] whatever the
    time and other keys keep their entries; deleting a key that is not in
    the cache changes nothing. After [clear()] every lookup answers [null]
    and the statistics are all zero. *)
Theorem delete_and_clear now key cm :
  get now key (delete_key key cm) = (JNull, delete_key key cm) /\
  (forall k, k <> key -> cache (delete_key key cm) !! k = cache cm !! k) /\
  (cache cm !! key = None -> delete_key key cm = cm) /\
  (forall k, get now k (clear cm) = (JNull, clear cm)) /\
  getStats now (clear cm) = {| active := 0; expired := 0; total := 0 |}.
Proof.
  split; [|split; [|split; [|split]]].
  - apply CacheFacts.get_absent. simpl. apply lookup_delete_eq.
  - intros k Hne. simpl. by apply lookup_delete_ne.
  - intros Hno. unfold delete_key. rewrite delete_id by done. apply with_cache_id.
  - intros k. apply CacheFacts.get_absent. simpl. apply lookup_empty.
  - unfold getStats, clear. simpl. by rewrite !map_filter_empty, map_size_empty.
Qed.

Lemma delete_and_clear_witness :
  cache (new_CacheManager None) !! "teams" = None /\
  delete_key "teams" (new_CacheManager None) = new_CacheManager None.
Proof.
  split; [reflexivity|].
  apply (delete_and_clear 0 "teams" (new_CacheManager None)). reflexivity.
Defined.

Lemma world_eta (w : World) :
  {| clock := clock w; manager := manager w; fetched := fetched w;
     console := console w |} = w.
Proof. by destruct w. Qed.

(** An unexpired entry whose value is not [null] is served as it is. *)
Lemma cachedGet_served key fetcher ttl w item :
  cache (manager w) !! key = Some item ->
  clock w <= expiry item ->
  is_null (data item) = false ->
  cachedGet key fetcher ttl w = (Ok (data item), w).
Proof.
  intros Hin Hlive Hval.
  unfold cachedGet, mbind, M_bind, bind, cache_get.
  rewrite (CacheFacts.get_live _ _ _ _ Hin Hlive). simpl.
  rewrite Hval. simpl. by rewrite world_eta.
Qed.

Lemma not_null v : v <> JNull -> is_null v = false.
Proof. by destruct v. Qed.

(** A miss whose fetcher returns a value other than [null]: the value is
    stored, and served to a call made within the time to live. *)
Lemma cachedGet_store_then_serve key fetcher ttl w v dt fetcher2 ttl2 :
  (get (clock w) key (manager w)).1 = JNull ->
  settles (fetcher (clock w)) = Ok v ->
  v <> JNull ->
  Z.max 0 dt <= default (defaultTTL (manager w)) ttl ->
  let w1 := (cachedGet key fetcher ttl w).2 in
  (cachedGet key fetcher ttl w).1 = Ok v /\
  fetched w1 = fetched w ++ [(key, clock w)] /\
  cachedGet key fetcher2 ttl2 (advance dt w1) = (Ok v, advance dt w1).
Proof.
  intros Hmiss Hok Hval Hsoon w1. unfold w1.
  rewrite (CacheFacts.cachedGet_miss_ok key fetcher ttl w v Hmiss Hok). simpl.
  split; [done|]. split; [done|].
  match goal with
  | |- cachedGet _ _ _ ?w2 = _ =>
      apply (cachedGet_served key fetcher2 ttl2 w2
               {| data := v;
                  expiry := clock w + Z.max 0 (took (fetcher (clock w)))
                            + default (defaultTTL (manager w)) ttl |})
  end.
  - unfold set. simpl. rewrite CacheFacts.get_defaultTTL. apply lookup_insert_eq.
  - simpl. lia.
  - by apply not_null.
Qed.

(** X5: on a hit, that is an unexpired entry whose value is not [null],
    [cachedGet] returns the cached value and does nothing else: the
    fetcher is not called and the cache, the clock and the console are as
    before. *)
Theorem cachedGet_hit key fetcher ttl w item :
  cache (manager w) !! key = Some item ->
  clock w <= expiry item ->
  data item <> JNull ->
  cachedGet key fetcher ttl w = (Ok (data item), w).
Proof.
  intros Hin Hlive Hval.
  unfold cachedGet, mbind, M_bind, bind, cache_get.
  rewrite (CacheFacts.get_live _ _ _ _ Hin Hlive). simpl.
  destruct (data item); try done; simpl; by rewrite world_eta.
Qed.

Lemma cachedGet_hit_witness :
  cache sample_manager !! "teams" = Some {| data := JStr "old"; expiry := 10 |} /\
  cachedGet "teams" failing_fetcher None (world_at 10 sample_manager)
    = (Ok (JStr "old"), world_at 10 sample_manager).
Proof.
  split; [reflexivity|].
  apply (cachedGet_hit "teams" failing_fetcher None (world_at 10 sample_manager)
           {| data := JStr "old"; expiry := 10 |}); [reflexivity | simpl; lia | discriminate].
Defined.

(** X6: a miss whose fetcher returns a value other than [null] (be it
    [undefined]) stores it with an expiry counted from the moment the
    fetcher settled, not from the call. A second call made no more than
    the time to live after that moment is served from the cache without
    calling its fetcher; a later one calls the fetcher again. *)
Theorem cachedGet_fetches_once key fetcher ttl w v dt fetcher2 :
  (get (clock w) key (manager w)).1 = JNull ->
  settles (fetcher (clock w)) = Ok v ->
  v <> JNull ->
  let life := default (defaultTTL (manager w)) ttl in
  let w1 := (cachedGet key fetcher ttl w).2 in
  (cachedGet key fetcher ttl w).1 = Ok v /\
  clock w1 = clock w + Z.max 0 (took (fetcher (clock w))) /\
  cache (manager w1) !! key = Some {| data := v; expiry := clock w1 + life |} /\
  (Z.max 0 dt <= life ->
     cachedGet key fetcher2 ttl (advance dt w1) = (Ok v, advance dt w1)) /\
  (life < Z.max 0 dt ->
     fetched (cachedGet key fetcher2 ttl (advance dt w1)).2
       = fetched w1 ++ [(key, clock w1 + Z.max 0 dt)]).
Proof.
  intros Hmiss Hok Hval life w1. unfold w1.
  rewrite (CacheFacts.cachedGet_miss_ok key fetcher ttl w v Hmiss Hok). simpl.
  split; [done|]. split; [done|].
  assert (cache (set (clock w + Z.max 0 (took (fetcher (clock w)))) key v ttl
                   (get (clock w) key (manager w)).2) !! key
          = Some {| data := v;
                    expiry := clock w + Z.max 0 (took (fetcher (clock w))) + life |})
    as Hin.
  { unfold set. simpl. rewrite CacheFacts.get_defaultTTL. apply lookup_insert_eq. }
  split; [done|]. split.
  - intros Hsoon.
    match goal with
    | |- cachedGet _ _ _ ?w2 = _ =>
        apply (cachedGet_served key fetcher2 ttl w2 _ Hin);
          [simpl; lia | by apply not_null]
    end.
  - intros Hlate. rewrite CacheFacts.cachedGet_miss_fetches; [done|]. simpl.
    rewrite (CacheFacts.get_stale _ _ _ _ Hin); [done | simpl; lia].
Qed.

Lemma cachedGet_fetches_once_witness :
  (get 20 "teams" sample_manager).1 = JNull /\
  cachedGet "teams" failing_fetcher (Some 100)
    (advance 100
       (cachedGet "teams" (fun _ => {| took := 5; settles := Ok JUndefined |})
          (Some 100) (world_at 20 sample_manager)).2)
  = (Ok JUndefined,
     advance 100
       (cachedGet "teams" (fun _ => {| took := 5; settles := Ok JUndefined |})
          (Some 100) (world_at 20 sample_manager)).2).
Proof.
  split; [reflexivity|].
  destruct (cachedGet_fetches_once "teams"
              (fun _ => {| took := 5; settles := Ok JUndefined |}) (Some 100)
              (world_at 20 sample_manager) JUndefined 100 failing_fetcher
              eq_refl eq_refl ltac:(discriminate)) as (_ & _ & _ & Hhit & _).
  apply Hhit. simpl. lia.
Defined.

(** Keys and tests. *)
Lemma prefix_append a b : String.prefix a (a +:+ b) = true.
Proof.
  induction a as [|c a IH]; simpl; [by destruct b|].
  destruct (Ascii.ascii_dec c c); [done | congruence].
Qed.

Lemma includes_unfold needle haystack :
  Client.includes needle haystack
  = String.prefix needle haystack
    || match haystack with
       | EmptyString => false
       | String _ rest => Client.includes needle rest
       end.
Proof. by destruct haystack. Qed.

Lemma includes_append needle before after :
  Client.includes needle (before +:+ needle +:+ after) = true.
Proof.
  induction before as [|c before IH].
  - change (EmptyString +:+ needle +:+ after) with (needle +:+ after).
    by rewrite includes_unfold, prefix_append.
  - change (String c before +:+ needle +:+ after)
      with (String c (before +:+ needle +:+ after)).
    rewrite includes_unfold, IH. apply orb_true_r.
Qed.

(** Deleting the keys that pass a test, among the keys of the cache. *)
Lemma delete_where_defaultTTL test keys : forall cm,
  defaultTTL (delete_where test keys cm) = defaultTTL cm.
Proof.
  induction keys as [|key keys IH]; intros cm; simpl; [done|].
  unfold delete_where in *. simpl. rewrite IH. by destruct (test key).
Qed.

Lemma delete_where_lookup test keys k : forall cm,
  cache (delete_where test keys cm) !! k
  = if test k && bool_decide (k ∈ keys) then None else cache cm !! k.
Proof.
  induction keys as [|key keys IH]; intros cm.
  - simpl. by rewrite andb_false_r.
  - unfold delete_where in *. simpl. rewrite IH.
    destruct (test k) eqn:Tk; simpl.
    + destruct (decide (k = key)) as [->|Hne].
      * rewrite Tk. simpl. rewrite lookup_delete_eq.
        rewrite (bool_decide_eq_true_2 (key ∈ key :: keys)) by left.
        by destruct (bool_decide (key ∈ keys)).
      * assert (bool_decide (k ∈ key :: keys) = bool_decide (k ∈ keys)) as ->
          by (apply bool_decide_ext; rewrite elem_of_cons;
              split; [by intros [?|?] | by right]).
        destruct (bool_decide (k ∈ keys)); [done|].
        destruct (test key); [|done]. simpl. by apply lookup_delete_ne.
    + destruct (test key) eqn:Tkey; [|done]. simpl.
      apply lookup_delete_ne. intros ->. congruence.
Qed.

Lemma delete_where_all test cm k :
  cache (delete_where test (cache_keys cm) cm) !! k
  = if test k then None else cache cm !! k.
Proof.
  rewrite delete_where_lookup. destruct (test k); [|done]. simpl.
  destruct (bool_decide (k ∈ cache_keys cm)) eqn:E; [done|].
  apply bool_decide_eq_false in E.
  destruct (cache cm !! k) as [item|] eqn:Hk; [|done].
  exfalso. apply E. unfold cache_keys. apply list_elem_of_fmap.
  exists (k, item). split; [done|]. by apply elem_of_map_to_list.
Qed.

(** X7: [clearPlayerCache()] removes exactly the entries whose key starts
    with 'players_' or 'top_performers_' and leaves every other entry as it
    was. Every key under which [getPlayers] or [getTopPerformers] stores is
    of that kind, so their next call misses; the keys of [getTeams] and
    [getAnalyticsOverview] are not. *)
Theorem clearPlayerCache_spec cm :
  (forall k, cache (clearPlayerCache cm) !! k
             = if is_player_key k then None else cache cm !! k) /\
  defaultTTL (clearPlayerCache cm) = defaultTTL cm /\
  (forall now params_json,
     get now (players_key params_json) (clearPlayerCache cm)
       = (JNull, clearPlayerCache cm)) /\
  (forall now metric position limit,
     get now (top_performers_key metric position limit) (clearPlayerCache cm)
       = (JNull, clearPlayerCache cm)) /\
  (forall now,
     (get now "teams" (clearPlayerCache cm)).1 = (get now "teams" cm).1 /\
     (get now "analytics_overview" (clearPlayerCache cm)).1
       = (get now "analytics_overview" cm).1).
Proof.
  assert (forall k, cache (clearPlayerCache cm) !! k
                    = if is_player_key k then None else cache cm !! k) as Hspec
    by (intros k; apply delete_where_all).
  split; [done|]. split; [apply delete_where_defaultTTL|].
  split; [|split].
  - intros now json. apply CacheFacts.get_absent. rewrite Hspec.
    unfold is_player_key, players_key. by rewrite prefix_append.
  - intros now metric position limit. apply CacheFacts.get_absent. rewrite Hspec.
    unfold is_player_key, top_performers_key.
    by rewrite prefix_append, orb_true_r.
  - intros now. split; apply CacheFacts.get_answer; by rewrite Hspec.
Qed.

(** X8: [clearTeamCache(teamId)]. Without an id, or with a falsy one such
    as [0] or the empty string, it removes the key 'teams' and the keys
    starting with 'team_', and nothing else. With a truthy id it removes
    exactly the keys that contain 'team_' followed by the id: the key
    'teams' stays, and the keys of another team whose id begins with the
    given one are removed as well. *)
Theorem clearTeamCache_spec teamId cm :
  (forall k, cache (clearTeamCache teamId cm) !! k
             = if is_team_key (or_default JNull teamId) k then None
               else cache cm !! k) /\
  (truthy teamId = false ->
     clearTeamCache teamId cm = clearTeamCache JNull cm /\
     cache (clearTeamCache teamId cm) !! "teams" = None /\
     (forall rest, cache (clearTeamCache teamId cm) !! ("team_" +:+ rest) = None) /\
     (forall k, String.prefix "team_" k = false -> k <> "teams" ->
        cache (clearTeamCache teamId cm) !! k = cache cm !! k)) /\
  (truthy teamId = true ->
     cache (clearTeamCache teamId cm) !! "teams" = cache cm !! "teams" /\
     (forall before more,
        cache (clearTeamCache teamId cm)
          !! (before +:+ ("team_" +:+ to_string teamId) +:+ more) = None)).
Proof.
  assert (forall k, cache (clearTeamCache teamId cm) !! k
                    = if is_team_key (or_default JNull teamId) k then None
                      else cache cm !! k) as Hspec
    by (intros k; apply delete_where_all).
  split; [done|]. split.
  - intros Hfalsy.
    assert (forall k, is_team_key (or_default JNull teamId) k
                      = (String.prefix "team_" k || String.eqb k "teams")) as Htest.
    { intros k. unfold is_team_key. by destruct teamId; simpl in *; rewrite ?Hfalsy. }
    split; [|split; [|split]].
    + apply manager_ext;
        [|unfold clearTeamCache; cbv zeta; by rewrite !delete_where_defaultTTL].
      apply map_eq. intros k. rewrite Hspec, Htest.
      unfold clearTeamCache. simpl. rewrite delete_where_all. done.
    + by rewrite Hspec, Htest.
    + intros rest. by rewrite Hspec, Htest, prefix_append.
    + intros k Hpre Hne. rewrite Hspec, Htest, Hpre. simpl.
      destruct (String.eqb k "teams") eqn:E; [|done].
      by apply String.eqb_eq in E.
  - intros Htruthy.
    assert (or_default JNull teamId = teamId) as Hid
      by (destruct teamId; simpl in *; done).
    split.
    + rewrite Hspec, Hid. unfold is_team_key. rewrite Htruthy.
      by destruct (to_string teamId).
    + intros before more. rewrite Hspec, Hid. unfold is_team_key.
      by rewrite Htruthy, includes_append.
Qed.

Lemma clearTeamCache_spec_witness :
  truthy (JNum 0) = false /\ truthy (JNum 5) = true /\
  clearTeamCache (JNum 0) sample_manager = clearTeamCache JNull sample_manager /\
  cache (clearTeamCache (JNum 5) sample_manager) !! "teams" = cache sample_manager !! "teams" /\
  cache (clearTeamCache (JNum 5)
           (set 0 "team_50_stats" JNull None sample_manager)) !! "team_50_stats" = None.
Proof.
  split; [reflexivity|]. split; [reflexivity|].
  destruct (clearTeamCache_spec (JNum 0) sample_manager) as (_ & Hfalsy & _).
  destruct (clearTeamCache_spec (JNum 5) sample_manager) as (_ & _ & Htruthy).
  destruct (clearTeamCache_spec (JNum 5)
              (set 0 "team_50_stats" JNull None sample_manager)) as (_ & _ & Hother).
  destruct (Hfalsy eq_refl) as [Hsame _].
  destruct (Htruthy eq_refl) as [Hteams _].
  destruct (Hother eq_refl) as [_ Hcontains].
  split; [exact Hsame|]. split; [exact Hteams|].
  exact (Hcontains EmptyString "0_stats").
Defined.

(** X9: the two clearings made after a data sync, [clearPlayerCache()]
    then [clearTeamCache()], remove the player keys, the key 'teams' and
    the 'team_' keys whichever is called first, and leave the rest; the
    entry 'analytics_overview' of [getAnalyticsOverview] survives the
    sync. *)
Theorem clear_after_sync cm :
  let cm' := clearTeamCache JUndefined (clearPlayerCache cm) in
  (forall k, cache cm' !! k
             = if is_player_key k || is_team_key JNull k then None
               else cache cm !! k) /\
  cm' = clearPlayerCache (clearTeamCache JUndefined cm) /\
  cache cm' !! "analytics_overview" = cache cm !! "analytics_overview".
Proof.
  intros cm'.
  assert (forall k, cache cm' !! k
                    = if is_player_key k || is_team_key JNull k then None
                      else cache cm !! k) as Hspec.
  { intros k. unfold cm', clearTeamCache, clearPlayerCache. simpl.
    rewrite !delete_where_all.
    by destruct (is_player_key k), (is_team_key JNull k). }
  split; [done|]. split; [|by rewrite Hspec].
  apply manager_ext.
  - apply map_eq. intros k. rewrite Hspec.
    unfold clearTeamCache, clearPlayerCache. simpl. rewrite !delete_where_all.
    by destruct (is_player_key k), (is_team_key JNull k).
  - unfold cm', clearTeamCache, clearPlayerCache. cbv zeta.
    by rewrite !delete_where_defaultTTL.
Qed.

(** X20: the cached methods keep what they fetched, whatever default time
    to live the cache manager has: [getTeams] for one hour, [getPlayers]
    for fifteen minutes under a key of its own for each parameter text,
    [getTopPerformers] and [getAnalyticsOverview] for thirty minutes. A
    second call within that time returns the fetched value without
    calling the backend. *)
Theorem cached_methods_lifetime b :
  served_for 3600000 "teams" (api_getTeams b) (getTeams b) /\
  (forall params_json,
     served_for 900000 (players_key params_json) (api_getPlayers b params_json)
       (getPlayers b params_json)) /\
  (forall metric position limit,
     let metric' := or_default (JStr "total_points") metric in
     let position' := or_default JNull position in
     let limit' := or_default (JNum 20) limit in
     served_for 1800000 (top_performers_key metric' position' limit')
       (api_getTopPerformers b metric' position' limit')
       (getTopPerformers b metric position limit)) /\
  served_for 1800000 "analytics_overview" (api_getAnalyticsOverview b)
    (getAnalyticsOverview b).
Proof.
  unfold served_for.
  split; [|split; [|split]];
    [| intros params_json | intros metric position limit |];
    intros w v dt Hmiss Hok Hval Hsoon;
    unfold getTeams, getPlayers, getTopPerformers, getAnalyticsOverview; cbv zeta;
    by apply cachedGet_store_then_serve.
Qed.

Lemma cached_methods_lifetime_witness :
  (get 0 "teams" (new_CacheManager None)).1 = JNull /\
  getTeams MoreSamples.steady
    (advance 3600000
       (getTeams MoreSamples.steady (world_at 0 (new_CacheManager None))).2)
  = (Ok (JArr [JObj [("name", JStr "Arsenal")]]),
     advance 3600000
       (getTeams MoreSamples.steady (world_at 0 (new_CacheManager None))).2).
Proof.
  split; [reflexivity|].
  destruct (cached_methods_lifetime MoreSamples.steady) as (H & _).
  destruct (H (world_at 0 (new_CacheManager None))
              (JArr [JObj [("name", JStr "Arsenal")]]) 3600000
              eq_refl eq_refl ltac:(discriminate) ltac:(simpl; lia))
    as (_ & _ & Hserved).
  exact Hserved.
Defined.

End CacheMore.

(** ** More on the concurrency limiter *)

Module QueueMore.
Import Queue Runs.

Lemma inv_lengths N s :
  Inv N s ->
  length (submitted s) = (length (started s) + length (queue (rq s)))%nat /\
  length (started s) = (length (settled s) + length (inflight s))%nat.
Proof.
  intros [_ _ _ _ Hfifo Hperm]. split.
  - by rewrite Hfifo, length_app.
  - by rewrite Hperm, length_app, length_map.
Qed.

Lemma settle_head N s op ops r :
  Inv N s -> inflight s = op :: ops ->
  submitted (step s (Settle op r)) = submitted s /\
  length (queue (rq (step s (Settle op r)))) = pred (length (queue (rq s))).
Proof.
  intros Hinv Hin. pose proof Hinv as [Hmax Hrun Hbound Hbusy _ _].
  simpl. rewrite Hin. simpl. rewrite Nat.eqb_refl. simpl.
  unfold finally. destruct (queue (rq s)) as [|x rest] eqn:Q.
  - by rewrite QueueFacts.processNext_idle.
  - rewrite (QueueFacts.processNext_starts _ x rest); simpl; [done| |done].
    rewrite Hbusy; [lia | done].
Qed.

Lemma drain_inv N results : forall s,
  1 <= N -> Inv N s -> length results = length (queue (rq s)) ->
  queue (rq (drain results s)) = [] /\
  started (drain results s) = submitted s /\
  submitted (drain results s) = submitted s.
Proof.
  induction results as [|r results IH]; intros s HN Hinv Hlen; cbn [drain].
  - destruct (queue (rq s)) eqn:Q; [|done].
    pose proof Hinv as [_ _ _ _ Hfifo _]. rewrite Hfifo, Q, app_nil_r. done.
  - pose proof Hinv as [Hmax Hrun Hbound Hbusy _ _].
    destruct (inflight s) as [|op ops] eqn:I.
    + destruct (queue (rq s)) eqn:Q; [done|].
      specialize (Hbusy ltac:(done)). simpl in Hrun. lia.
    + destruct (settle_head N s op ops r Hinv I) as [Hsub Hq].
      destruct (IH (step s (Settle op r)) HN (QueueFacts.step_inv _ _ _ Hinv)
                  ltac:(rewrite Hq; simpl in Hlen; lia)) as (H1 & H2 & H3).
      by rewrite H1, H2, H3, Hsub.
Qed.

(** X10: a queue with limit [N >= 1] cannot get stuck. In every reachable
    state something is running whenever something is queued, each
    completion of a running operation shortens the queue by one, and so
    as many completions as there are queued operations start them all:
    every submitted operation has then been started. *)
Theorem queue_drains N events results :
  1 <= N ->
  let s := run (init (Some N)) events in
  (queue (rq s) <> [] -> inflight s <> []) /\
  (forall op r, op ∈ inflight s ->
     length (queue (rq (step s (Settle op r)))) = pred (length (queue (rq s)))) /\
  (length results = length (queue (rq s)) ->
     queue (rq (drain results s)) = [] /\
     started (drain results s) = submitted s).
Proof.
  intros HN s.
  pose proof (QueueFacts.reachable_inv N events ltac:(lia)) as Hinv. fold s in Hinv.
  pose proof Hinv as [Hmax Hrun Hbound Hbusy _ _].
  split; [|split].
  - intros Hq Hin. specialize (Hbusy Hq). rewrite Hin in Hrun. simpl in Hrun. lia.
  - intros op r Hin. simpl.
    assert (existsb (Nat.eqb op) (inflight s) = true) as ->
      by (by apply QueueFacts.existsb_eqb_elem).
    unfold finally. destruct (queue (rq s)) as [|x rest] eqn:Q.
    + by rewrite QueueFacts.processNext_idle.
    + rewrite (QueueFacts.processNext_starts _ x rest); simpl; [done| |done].
      rewrite Hbusy; [lia | done].
  - intros Hlen. destruct (drain_inv N results s HN Hinv Hlen) as (H1 & H2 & _).
    done.
Qed.

Lemma queue_drains_witness :
  1 <= 2 /\
  started (drain [Ok JNull; Throw AbortError]
             (run (init (Some 2))
                [Submit 1%nat; Submit 2%nat; Submit 3%nat; Submit 4%nat]))
  = [1%nat; 2%nat; 3%nat; 4%nat].
Proof.
  split; [lia|].
  destruct (queue_drains 2 [Submit 1%nat; Submit 2%nat; Submit 3%nat; Submit 4%nat]
              [Ok JNull; Throw AbortError] ltac:(lia)) as (_ & _ & H).
  destruct (H eq_refl) as [_ Hall]. exact Hall.
Defined.

(** X11: a queue built with a limit of zero or less never starts
    anything: whatever is submitted stays queued. *)
Theorem nonpositive_limit_starves N events :
  N <= 0 ->
  let s := run (init (Some N)) events in
  started s = [] /\ inflight s = [] /\ settled s = [] /\
  running (rq s) = 0 /\ queue (rq s) = submitted s.
Proof.
  intros HN s. unfold s.
  assert (forall s0,
            maxConcurrent (rq s0) = N /\ started s0 = [] /\ inflight s0 = [] /\
            settled s0 = [] /\ running (rq s0) = 0 /\ queue (rq s0) = submitted s0 ->
            maxConcurrent (rq (run s0 events)) = N /\ started (run s0 events) = [] /\
            inflight (run s0 events) = [] /\ settled (run s0 events) = [] /\
            running (rq (run s0 events)) = 0 /\
            queue (rq (run s0 events)) = submitted (run s0 events)) as Hrun.
  { induction events as [|e events IH]; intros s0 H; simpl; [done|].
    apply IH. destruct H as (Hmax & Hst & Hin & Hse & Hr & Hq).
    destruct e as [op | op r]; simpl.
    - unfold add. rewrite QueueFacts.processNext_full by (simpl; lia). simpl.
      rewrite Hst, Hin, Hq. done.
    - by rewrite Hin. }
  destruct (Hrun (init (Some N))) as (_ & H); [|done].
  simpl. done.
Qed.

Lemma nonpositive_limit_starves_witness :
  0 <= 0 /\
  queue (rq (run (init (Some 0)) [Submit 1%nat; Submit 2%nat])) = [1%nat; 2%nat].
Proof.
  split; [lia|].
  destruct (nonpositive_limit_starves 0 [Submit 1%nat; Submit 2%nat] ltac:(lia))
    as (_ & _ & _ & _ & H).
  exact H.
Defined.

(** X12: the queue is work conserving. With a limit [N >= 0], in every
    reachable state the number of running operations is the smaller of [N]
    and the number of operations submitted and not yet settled. *)
Theorem running_is_min N events :
  0 <= N ->
  let s := run (init (Some N)) events in
  running (rq s) = Z.min N (outstanding s).
Proof.
  intros HN s.
  pose proof (QueueFacts.reachable_inv N events HN) as Hinv. fold s in Hinv.
  destruct (inv_lengths N s Hinv) as [Hsub Hst].
  destruct Hinv as [Hmax Hrun Hbound Hbusy _ _].
  unfold outstanding. destruct (queue (rq s)) as [|x rest] eqn:Q.
  - simpl in Hsub. lia.
  - specialize (Hbusy ltac:(done)). simpl in Hsub. lia.
Qed.

Lemma running_is_min_witness :
  0 <= 2 /\
  running (rq (run (init (Some 2)) [Submit 1%nat; Submit 2%nat; Submit 3%nat]))
  = Z.min 2 (outstanding (run (init (Some 2)) [Submit 1%nat; Submit 2%nat; Submit 3%nat])).
Proof.
  split; [lia|].
  apply (running_is_min 2 [Submit 1%nat; Submit 2%nat; Submit 3%nat]). lia.
Defined.

End QueueMore.

(** ** More on the gateway client *)

Module ClientMore.
Import Client Runs ClientSamples.

Lemma intercept_app {A : Type} (chain1 chain2 : list (A -> Outcome A)) (x : A) :
  intercept (chain1 ++ chain2) x
  = match intercept chain1 x with
    | Ok y => intercept chain2 y
    | Throw e => Throw e
    end.
Proof.
  revert x. induction chain1 as [|i chain1 IH]; intros x; simpl; [done|].
  destruct (i x) as [y|e]; [apply IH | done].
Qed.

(** X13: a client fresh from the constructor sends every request to the
    host-dependent prefix followed by the path, whatever base URL the
    configuration names, with the method and body of the options, and with
    the headers of the options completed by the two default headers: a
    header given by the caller keeps its value, and 'Content-Type' and
    'Accept' are 'application/json' unless the caller gave them. *)
Theorem default_headers_sent cfg isLocal path options :
  let c := new_APIClient cfg isLocal in
  let given := default ∅ (opt_headers options) in
  exists config,
    intercept (requestInterceptors c) (initial_config c path options) = Ok config /\
    url config = (if isLocal then "http://localhost:8000/api/v2" else "/api/v2") +:+ path /\
    method config = default "GET" (opt_method options) /\
    body config = opt_body options /\
    (forall name value, given !! name = Some value -> headers config !! name = Some value) /\
    (forall name, given !! name = None -> headers config !! name = default_headers !! name) /\
    (given !! "Content-Type" = None -> headers config !! "Content-Type" = Some "application/json") /\
    (given !! "Accept" = None -> headers config !! "Accept" = Some "application/json").
Proof.
  intros c given. eexists. split; [reflexivity|]. simpl.
  split; [done|]. split; [done|]. split; [done|].
  assert (forall name, given !! name = None ->
            (given ∪ default_headers) !! name = default_headers !! name) as Hdef
    by (intros name Hno; by apply lookup_union_r).
  split; [intros name value Hin; by apply lookup_union_Some_l|].
  split; [done|]. split; intros Hno; by rewrite Hdef.
Qed.

Lemma default_headers_sent_witness :
  default ∅ (opt_headers no_options) !! "Accept" = None /\
  exists config,
    intercept (requestInterceptors api) (initial_config api "/teams/" no_options)
      = Ok config /\
    headers config !! "Accept" = Some "application/json".
Proof.
  split; [reflexivity|].
  destruct (default_headers_sent API_CONFIG true "/teams/" no_options)
    as (config & Hcfg & _ & _ & _ & _ & _ & _ & Haccept).
  exists config. split; [exact Hcfg | exact (Haccept eq_refl)].
Defined.

(** X14: request interceptors run in the order of their registration,
    each on the configuration the previous one returned, and one added
    with [addRequestInterceptor] runs last. If one of them throws, the
    others do not run and [request] throws that very error, even one named
    [AbortError], before any timer is set or [fetch] is called. *)
Theorem request_interceptors_in_order c net path options i w :
  (forall x, intercept (requestInterceptors (addRequestInterceptor i c)) x
             = match intercept (requestInterceptors c) x with
               | Ok y => i y
               | Throw e => Throw e
               end) /\
  initial_config (addRequestInterceptor i c) path options = initial_config c path options /\
  (forall e,
     intercept (requestInterceptors c) (initial_config c path options) = Throw e ->
     request c net path options w = (Throw e, w)) /\
  (forall e,
     intercept (requestInterceptors c) (initial_config c path options) = Throw e ->
     request (addRequestInterceptor i c) net path options w = (Throw e, w)).
Proof.
  assert (forall x, intercept (requestInterceptors (addRequestInterceptor i c)) x
                    = match intercept (requestInterceptors c) x with
                      | Ok y => i y
                      | Throw e => Throw e
                      end) as Horder.
  { intros x. simpl. rewrite intercept_app.
    destruct (intercept (requestInterceptors c) x) as [y|e]; [|done].
    simpl. by destruct (i y). }
  split; [done|]. split; [done|]. split.
  - intros e He. by rewrite ClientFacts.request_unfold, He.
  - intros e He. rewrite ClientFacts.request_unfold.
    change (initial_config (addRequestInterceptor i c) path options)
      with (initial_config c path options).
    by rewrite Horder, He.
Qed.

Lemma request_interceptors_in_order_witness :
  intercept (requestInterceptors
               (addRequestInterceptor (fun _ => Throw AbortError) api))
    (initial_config api "/teams/" no_options) = Throw AbortError /\
  request (addRequestInterceptor (fun _ => Throw AbortError) api) silent
    "/teams/" no_options start = (Throw AbortError, start).
Proof.
  split; [reflexivity|].
  destruct (request_interceptors_in_order
              (addRequestInterceptor (fun _ => Throw AbortError) api) silent
              "/teams/" no_options (fun x => Ok x) start) as (_ & _ & H & _).
  apply H. reflexivity.
Defined.



Lemma elapsed_nonneg d attempt attempts : 0 <= elapsed d attempt attempts.
Proof.
  revert attempt. induction attempts as [|b attempts IH]; intros attempt; simpl; [lia|].
  specialize (IH (attempt + 1)). destruct b; simpl; lia.
Qed.

Lemma answers_tail net config k b attempts :
  answers net config k (b :: attempts) ->
  net config k = b /\ answers net config (S k) attempts.
Proof.
  intros H. split.
  - specialize (H O b eq_refl). by rewrite Nat.add_0_r in H.
  - intros i b' Hi. specialize (H (S i) b' Hi).
    by rewrite Nat.add_succ_r in H.
Qed.

(** Attempts that fail in time, while attempts are left, lead to the next
    attempt after their delays. *)
Lemma fetchWithRetry_skip c net config signal attempts : forall attempt w,
  Forall (fun b => transient b = true) attempts ->
  answers net config (calls w) attempts ->
  attempt + Z.of_nat (length attempts) <= retryAttempts c ->
  now w + elapsed (retryDelay c) attempt attempts < signal ->
  exists w',
    fetchWithRetry c net config signal attempt w
      = fetchWithRetry c net config signal (attempt + Z.of_nat (length attempts)) w' /\
    now w' = now w + elapsed (retryDelay c) attempt attempts /\
    calls w' = (calls w + length attempts)%nat.
Proof.
  induction attempts as [|b attempts IH]; intros attempt w Hall Hnet Hleft Htime.
  - exists w. simpl. rewrite Z.add_0_r, Nat.add_0_r. by rewrite Z.add_0_r.
  - apply Forall_cons in Hall as [Hb Hall].
    apply answers_tail in Hnet as [Hnow Hnet].
    pose proof (elapsed_nonneg (retryDelay c) (attempt + 1) attempts) as Hpos.
    simpl in Htime, Hleft.
    assert ((attempt <? retryAttempts c) = true) as Hretry by lia.
    rewrite ClientFacts.fetchWithRetry_unfold.
    destruct b as [d resp|d e|]; simpl in Hb, Htime; [| |done].
    + rewrite (ClientFacts.fetch_responds net config signal w d resp Hnow) by lia.
      simpl. rewrite Hb, Hretry. simpl.
      match goal with
      | |- context [fetchWithRetry c net config signal (attempt + 1) ?w2] =>
          destruct (IH (attempt + 1) w2 Hall Hnet ltac:(lia) ltac:(simpl; lia))
            as (w' & Heq & Hn & Hc)
      end.
      exists w'. rewrite Heq. simpl in Hn, Hc.
      split; [f_equal; lia|]. split; [simpl; lia|lia].
    + rewrite (ClientFacts.fetch_fails net config signal w d e Hnow) by lia.
      simpl. rewrite Hretry.
      match goal with
      | |- context [fetchWithRetry c net config signal (attempt + 1) ?w2] =>
          destruct (IH (attempt + 1) w2 Hall Hnet ltac:(lia) ltac:(simpl; lia))
            as (w' & Heq & Hn & Hc)
      end.
      exists w'. rewrite Heq. simpl in Hn, Hc.
      split; [f_equal; lia|]. split; [simpl; lia|lia].
Qed.

(** X16: transient failures are masked. If the first attempts all fail
    with a transport failure or a status of 500 or more, attempts are
    left, and the next attempt is answered with a status below 500, all
    before the timeout, then [fetchWithRetry] returns that response after
    one [fetch] per attempt and the delays in between, and [request]
    settles with it: it returns the decoded body of an ok response. Without
    failed attempts this is the plain successful request. *)
Theorem retry_recovers c net path options config w attempts d resp :
  intercept (requestInterceptors c) (initial_config c path options) = Ok config ->
  Forall (fun b => transient b = true) attempts ->
  answers net config (calls w) attempts ->
  net config (calls w + length attempts)%nat = Responds d resp ->
  status resp < 500 ->
  1 + Z.of_nat (length attempts) <= Z.max 1 (retryAttempts c) ->
  elapsed (retryDelay c) 1 attempts + Z.max 0 d < Z.max 0 (timeout c) ->
  let signal := now w + Z.max 0 (timeout c) in
  let r := request c net path options w in
  (fetchWithRetry c net config signal 1 w).1 = Ok resp /\
  calls r.2 = (calls w + length attempts + 1)%nat /\
  now r.2 = now w + elapsed (retryDelay c) 1 attempts + Z.max 0 d /\
  (forall body,
     ok resp = true -> decode resp = Ok body -> responseInterceptors c = [] ->
     r.1 = Ok body).
Proof.
  intros Hcfg Hall Hnet Hlast Hst Hleft Htime signal r.
  pose proof (elapsed_nonneg (retryDelay c) 1 attempts) as Hpos.
  assert (1 + Z.of_nat (length attempts) <= retryAttempts c \/ attempts = []) as Hcase.
  { destruct attempts; [by right|]. left. simpl length in *. lia. }
  assert (forall u, now u = now w -> calls u = calls w ->
            exists u',
              fetchWithRetry c net config signal 1 u = (Ok resp, u') /\
              now u' = now w + elapsed (retryDelay c) 1 attempts + Z.max 0 d /\
              calls u' = (calls w + length attempts + 1)%nat) as Hrun.
  { intros u Hnu Hcu.
    assert (exists w',
              fetchWithRetry c net config signal 1 u
                = fetchWithRetry c net config signal
                    (1 + Z.of_nat (length attempts)) w' /\
              now w' = now w + elapsed (retryDelay c) 1 attempts /\
              calls w' = (calls w + length attempts)%nat) as (w' & Heq & Hn & Hc).
    { destruct Hcase as [Hle | ->].
      - rewrite <- Hnu, <- Hcu. apply fetchWithRetry_skip;
          [done | by rewrite Hcu | done | rewrite Hnu; unfold signal; lia].
      - exists u. simpl. split; [done|]. split; lia. }
    eexists. split.
    - rewrite Heq, ClientFacts.fetchWithRetry_unfold.
      rewrite (ClientFacts.fetch_responds net config signal w' d resp)
        by (rewrite ?Hc; done || (unfold signal; lia)).
      simpl. destruct (status resp >=? 500) eqn:E; [lia | reflexivity].
    - simpl. lia. }
  destruct (Hrun w eq_refl eq_refl) as (u1 & Hf1 & _).
  destruct (Hrun (armed w) eq_refl eq_refl) as (u2 & Hf2 & Hn2 & Hc2).
  split; [by rewrite Hf1|].
  unfold r. rewrite ClientFacts.request_unfold, Hcfg. fold signal.
  rewrite Hf2. simpl. split; [lia|]. split; [lia|].
  intros body Hok Hd Hnone. unfold finish. rewrite Hd, Hnone. simpl.
  by rewrite Hok.
Qed.

Lemma retry_recovers_witness :
  Forall (fun b => transient b = true)
    [Fails 20 failed_to_fetch; Responds 30 unavailable] /\
  (request api MoreSamples.flaky "/teams/" no_options start).1
    = Ok (JArr [JObj [("name", JStr "Arsenal")]]) /\
  now (request api MoreSamples.flaky "/teams/" no_options start).2 = 3090.
Proof.
  assert (Forall (fun b => transient b = true)
            [Fails 20 failed_to_fetch; Responds 30 unavailable]) as Hall
    by (repeat constructor).
  split; [exact Hall|].
  destruct (retry_recovers api MoreSamples.flaky "/teams/" no_options
              MoreSamples.sent_config start
              [Fails 20 failed_to_fetch; Responds 30 unavailable] 40
              MoreSamples.teams_found eq_refl Hall) as (_ & _ & Hnow & Hres).
  - intros i b Hi. destruct i as [|[|i]]; simpl in Hi; try discriminate;
      by injection Hi as <-.
  - reflexivity.
  - vm_compute. reflexivity.
  - vm_compute. discriminate.
  - vm_compute. reflexivity.
  - split; [exact (Hres _ eq_refl eq_refl eq_refl) | exact Hnow].
Defined.

Lemma fetch_by_abort net config signal w :
  now (fetch net config signal w).2 <= Z.max (now w) signal.
Proof.
  unfold fetch. destruct (aborted signal w); [simpl; lia|].
  destruct (net config (calls w)) as [d resp|d e|]; simpl; [| |lia].
  - destruct (now w + Z.max 0 d <? signal) eqn:E; simpl; lia.
  - destruct (now w + Z.max 0 d <? signal) eqn:E; simpl; lia.
Qed.

(** A run of [fetchWithRetry] ends no later than the abort, or its own
    start if that is later, plus the delays of the attempts it may make. *)
Lemma fetchWithRetry_deadline n : forall c net config signal attempt w,
  Z.to_nat (retryAttempts c - attempt) = n ->
  now (fetchWithRetry c net config signal attempt w).2
    <= Z.max (now w) signal + backoff (retryDelay c) attempt n.
Proof.
  induction n as [|n IH]; intros c net config signal attempt w Hn;
    rewrite ClientFacts.fetchWithRetry_unfold;
    pose proof (fetch_by_abort net config signal w) as Hw1;
    destruct (fetch net config signal w) as [o w1]; simpl in Hw1;
    destruct (retries c attempt o) eqn:R; simpl.
  - apply ClientFacts.retries_attempts_left in R. lia.
  - lia.
  - specialize (IH c net config signal (attempt + 1)
                  (delay (retryDelay c * attempt) w1).2 ltac:(lia)).
    simpl in IH |- *. lia.
  - pose proof (ClientFacts.backoff_nonneg (retryDelay c) (attempt + 1) n). lia.
Qed.

(** X17: the time [request] spends under its timer is bounded.
    [fetchWithRetry], called as soon as the timer is set, settles no later
    than the timeout plus the retry delays, [retryDelay * 1 + ... +
    retryDelay * (retryAttempts - 1)], after that, having called [fetch]
    at least once and at most [retryAttempts] times (once if that is
    less). When it returns a response it does so strictly before the
    timeout has elapsed, and when it settles at the timeout or later it
    throws the [AbortError], which [request] turns into the error of
    status 408. [request] calls [fetch] nowhere else, and returns a value
    only if [fetchWithRetry] returned a response in this way. *)
Theorem timer_bounds_attempts c net path options config w :
  let signal := now w + Z.max 0 (timeout c) in
  let r := fetchWithRetry c net config signal 1 (armed w) in
  let n := Z.to_nat (retryAttempts c - 1) in
  now w <= now r.2 <= signal + backoff (retryDelay c) 1 n /\
  (calls w < calls r.2 <= calls w + S n)%nat /\
  (forall resp, r.1 = Ok resp -> now r.2 < signal) /\
  (signal <= now r.2 -> r.1 = Throw AbortError) /\
  (intercept (requestInterceptors c) (initial_config c path options) = Ok config ->
   let q := request c net path options w in
   calls q.2 = calls r.2 /\
   (signal <= now r.2 -> q.1 = Throw (APIError "Request timeout" 408 JNull)) /\
   (forall v, q.1 = Ok v -> exists resp, r.1 = Ok resp /\ now r.2 < signal)).
Proof.
  intros signal r n.
  pose proof (ClientFacts.backoff_nonneg (retryDelay c) 1 n) as Hb.
  destruct (ClientFacts.fetchWithRetry_run n c net config signal 1 (armed w) eq_refl)
    as (fs & _ & Hcalls & Hlen & _ & _ & _ & Hmono & Hlate & _ & Hok).
  pose proof (fetchWithRetry_deadline n c net config signal 1 (armed w) eq_refl)
    as Hdead.
  fold r in Hcalls, Hmono, Hlate, Hok, Hdead. simpl in Hcalls, Hmono, Hdead.
  split; [unfold signal; lia|]. split; [lia|].
  split; [intros resp Hresp; by destruct (Hok resp Hresp)|]. split; [done|].
  intros Hcfg q. unfold q. rewrite ClientFacts.request_unfold, Hcfg.
  fold signal. fold r. simpl. split; [done|]. split.
  - intros H. by rewrite (Hlate H).
  - intros v Hv. destruct r.1 as [resp|e] eqn:F.
    + exists resp. split; [done|]. by destruct (Hok resp eq_refl).
    + simpl in Hv. by destruct (String.eqb (error_name e) "AbortError").
Qed.

Lemma timer_bounds_attempts_witness :
  intercept (requestInterceptors api) (initial_config api "/teams/" no_options)
    = Ok MoreSamples.sent_config /\
  30000 <= now (fetchWithRetry api silent MoreSamples.sent_config 30000 1
                  (armed start)).2 /\
  (request api silent "/teams/" no_options start).1
    = Throw (APIError "Request timeout" 408 JNull).
Proof.
  split; [reflexivity|].
  assert (30000 <= now (fetchWithRetry api silent MoreSamples.sent_config 30000 1
                          (armed start)).2) as Hlate
    by (vm_compute; discriminate).
  split; [exact Hlate|].
  destruct (timer_bounds_attempts api silent "/teams/" no_options
              MoreSamples.sent_config start) as (_ & _ & _ & _ & H).
  destruct (H eq_refl) as (_ & H408 & _).
  exact (H408 Hlate).
Defined.

End ClientMore.

(** ** The error handler *)

Module HandlerFacts.
Import Client Handler ClientSamples.

Lemma classify_truthy error : truthy (classify error).1 = true.
Proof.
  destruct error as [text status data | name text]; simpl.
  - repeat match goal with
           | |- context [if ?b then _ else _] => destruct b eqn:?; simpl
           end; done.
  - by destruct (String.eqb name "NetworkError" || includes "fetch" text).
Qed.

(** Outside of status 400 the message chosen for an error object is one
    of the fixed texts or the error's own message when that is not
    empty. *)
Lemma classify_text error :
  error_status error <> Some 400 -> to_string (classify error).1 <> EmptyString.
Proof.
  destruct error as [text status data | name text]; simpl.
  - intros Hst. destruct (status =? 400) eqn:E1; [exfalso; apply Hst; f_equal; lia|].
    destruct (status =? 404); [done|]. destruct (status =? 429); [done|].
    destruct (status =? 500); [done|]. destruct (status =? 503); [done|].
    destruct (String.eqb text EmptyString) eqn:E; simpl; [done|].
    intros ->. by rewrite String.eqb_refl in E.
  - intros _. by destruct (String.eqb name "NetworkError" || includes "fetch" text).
Qed.

(** A value that is not an object has no [name] and no [message]. *)
Lemma classify_value_plain v :
  (forall fields, v <> JObj fields) -> classify_value v = Throw TypeError.
Proof.
  intros H. destruct v; try done. by destruct (H fields).
Qed.

(** X18: given an error object, an [APIError] or another error with its
    [name] and [message], [handle] writes one line to the console, shows
    one notification of type 'warning' or 'error', and returns the message
    and type shown with the error it was given. The type is 'warning'
    exactly for an [APIError] of status 400, 404 or 429 and for any other
    error named 'NetworkError' or whose message contains 'fetch'. The
    message is a truthy value, and its text is not empty unless the error
    is an [APIError] of status 400: there the text is that of
    [data.message] when this is truthy, which is empty for an empty
    array. Given a value that is not an object, such as the [null] or the
    rejection reason that the listeners of 'error' and
    'unhandledrejection' may pass, [handle] writes the line to the
    console, throws a [TypeError] and shows nothing. *)
Theorem handle_classification context page :
  let logged := console page ++ ["Error in " +:+ context +:+ ":"] in
  (forall error,
     exists h,
       handle (Err error) context page
         = (Ok h, {| console := logged;
                     notifications := notifications page
                                      ++ [(to_string (message h), type h)] |}) /\
       originalError h = Err error /\
       truthy (message h) = true /\
       (type h = "warning" \/ type h = "error") /\
       (type h = "warning" <->
          match error with
          | APIError _ status _ => status = 400 \/ status = 404 \/ status = 429
          | NativeError name text =>
              name = "NetworkError" \/ includes "fetch" text = true
          end) /\
       (error_status error <> Some 400 -> to_string (message h) <> EmptyString) /\
       (forall text data,
          error = APIError text 400 data ->
          message h = if truthy (opt_message data) then opt_message data
                      else JStr "Invalid request data")) /\
  (forall text,
     (handle (Err (APIError text 400 (JObj [("message", JArr [])]))) context page).2
     = {| console := logged;
          notifications := notifications page ++ [(EmptyString, "warning")] |}) /\
  (forall v,
     (forall fields, v <> JObj fields) ->
     handle (Val v) context page
       = (Throw TypeError, {| console := logged; notifications := notifications page |})).
Proof.
  intros logged. split; [|split].
  - intros error.
    pose proof (classify_truthy error) as Htruthy.
    pose proof (classify_text error) as Htext.
    unfold handle, mbind, M_bind, bind, console_error, showNotification, modify, mret,
      M_ret, ret, lift_outcome. simpl.
    destruct (classify error) as [msg ty] eqn:C. simpl in *.
    exists {| message := msg; type := ty; originalError := Err error |}.
    split; [reflexivity|]. simpl. split; [done|]. split; [done|].
    assert ((ty = "warning" \/ ty = "error") /\
            (ty = "warning" <->
               match error with
               | APIError _ status _ => status = 400 \/ status = 404 \/ status = 429
               | NativeError name text =>
                   name = "NetworkError" \/ includes "fetch" text = true
               end)) as [Hty Hwarn].
    { destruct error as [text status data | name text]; simpl in C.
      - destruct (status =? 400) eqn:E1;
          [injection C as <- <-; split; [by left|]; split; [intros _; lia | done]|].
        destruct (status =? 404) eqn:E2;
          [injection C as <- <-; split; [by left|]; split; [intros _; lia | done]|].
        destruct (status =? 429) eqn:E3;
          [injection C as <- <-; split; [by left|]; split; [intros _; lia | done]|].
        assert (~ (status = 400 \/ status = 404 \/ status = 429)) as Hother by lia.
        destruct (status =? 500) eqn:E4;
          [injection C as <- <-; split; [by right|]; split; [done | tauto]|].
        destruct (status =? 503) eqn:E5;
          [injection C as <- <-; split; [by right|]; split; [done | tauto]|].
        injection C as <- <-. split; [by right|]. split; [done | tauto].
      - destruct (String.eqb name "NetworkError") eqn:E1; simpl in C.
        + injection C as <- <-. split; [by left|]. split; [|done].
          intros _. left. by apply String.eqb_eq.
        + destruct (includes "fetch" text) eqn:E2; injection C as <- <-.
          * split; [by left|]. split; [|done]. intros _. by right.
          * split; [by right|]. split; [done|].
            intros [-> | H]; [by rewrite String.eqb_refl in E1 | done]. }
    split; [done|]. split; [done|]. split; [done|].
    intros text data ->. simpl in C. by injection C as <- _.
  - intros text. reflexivity.
  - intros v Hv. unfold handle, mbind, M_bind, bind, console_error, modify,
      lift_outcome. simpl. by rewrite (classify_value_plain v Hv).
Qed.

Lemma handle_classification_witness :
  (forall fields, JNull <> JObj fields) /\
  handle (Val JNull) "global error handler" MoreSamples.blank_page
    = (Throw TypeError,
       {| console := ["Error in global error handler:"]; notifications := [] |}) /\
  (handle (Err (APIError "Request timeout" 408 JNull)) "loading team"
     MoreSamples.blank_page).2
    = {| console := ["Error in loading team:"];
         notifications := [("Request timeout", "error")] |}.
Proof.
  assert (forall fields, JNull <> JObj fields) as Hnull by discriminate.
  split; [exact Hnull|].
  split.
  - destruct (handle_classification "global error handler" MoreSamples.blank_page)
      as (_ & _ & H).
    exact (H JNull Hnull).
  - destruct (handle_classification "loading team" MoreSamples.blank_page)
      as (H & _ & _).
    destruct (H (APIError "Request timeout" 408 JNull)) as (h & Hrun & _).
    rewrite Hrun. vm_compute in Hrun. injection Hrun as <-. reflexivity.
Defined.



End HandlerFacts.
